(** * flask_restplus.swagger: the Swagger specification serializer

    A shallow embedding of [flask_restplus/swagger.py].  Python values are
    embedded in one inductive type, dictionaries that keep their insertion
    order ([dict], [OrderedDict]) are association lists, the registries
    ([api.models], [Swagger._registered_models]) are finite maps, and a
    raised exception is the [Err] branch of a result type.  Code that
    mutates an object in place is written in state-passing style. *)

From Stdlib Require Import ZArith String Ascii List Bool Lia DecimalString.
From stdpp Require Import base option list strings gmap.

Set Warnings "-register-all".

Local Open Scope string_scope.
Local Open Scope list_scope.

(** ** Python values *)

(** The classes that occur as values: the three primitive classes that are
    keys of [PY_TYPES], and any other class. *)
Inductive pytype : Type :=
| TInt
| TStr
| TBool
| TClass (name : string).

(** Dictionary keys: strings, and integers (response codes are usually
    declared as integers). *)
Inductive key : Type :=
| KStr (s : string)
| KInt (n : Z).
Coercion KStr : string >-> key.

Global Instance key_eq_dec : EqDecision key.
Proof. solve_decision. Defined.

Global Instance pytype_eq_dec : EqDecision pytype.
Proof. solve_decision. Defined.

(** A [reqparse.Argument], over the type of values. *)
Record argument_ (V : Type) : Type := Argument {
  arg_name : string;
  arg_location : V;
  arg_type : V;
  arg_required : V;
  arg_help : V;
  arg_default : V;
  arg_action : V;
  arg_choices : V
}.
Arguments Argument {V}.
Arguments arg_name {V}.
Arguments arg_location {V}.
Arguments arg_type {V}.
Arguments arg_required {V}.
Arguments arg_help {V}.
Arguments arg_default {V}.
Arguments arg_action {V}.
Arguments arg_choices {V}.

Inductive value : Type :=
| VNone
| VBool (b : bool)
| VInt (n : Z)
| VStr (s : string)
| VList (xs : list value)             (* a list or a tuple *)
| VDict (d : list (key * value))      (* a dict or an OrderedDict *)
| VType (t : pytype)                  (* a class *)
| VModel (name : string) (size : nat) (schema : value)
    (* a Model instance: its name, its number of fields (a Model is a
       mapping from field names to fields) and its __schema__ *)
| VField (is_class : bool) (schema : value)
    (* a fields.Raw subclass, or an instance of one, with the __schema__
       of the instance *)
| VParser (args : list (argument_ value))
| VObject (apidoc : option value) (schema : option value)
    (* any other object, with its __apidoc__ and __schema__ attributes *)
| VCallable (returns : value).

Abbreviation dict := (list (key * value)).
Abbreviation argument := (argument_ value).

(** ** Exceptions *)

(** The message of a [ValueError], before formatting. *)
Inductive message : Type :=
| ModelNotRegistered (model : value)   (* 'Model {0} not registered' *)
| UnsupportedConverter                 (* 'Unsupported type converter' *)
| UnsupportedTag (tag : value)         (* 'Unsupported tag format for {0}' *)
| Unpack.                              (* a sequence unpacked into two names *)

Inductive error : Type :=
| ValueError (msg : message)
| SpecsError (msg : string)
| KeyError (k : string)
| TypeError
| IndexError
| AttributeError
| RecursionError.

(** ** Results *)

Inductive result (A : Type) : Type :=
| Ok (a : A)
| Err (e : error).
Arguments Ok {A} a.
Arguments Err {A} e.


Definition bind {A B} (r : result A) (f : A -> result B) : result B :=
  match r with
  | Ok a => f a
  | Err e => Err e
  end.

Notation "'do' x <- r ; k" := (bind r (fun x => k))
  (at level 10, x pattern, r at level 100, k at level 200).


(** Python truth value.  A mapping or a sequence is false when empty. *)
Definition truthy (v : value) : bool :=
  match v with
  | VNone => false
  | VBool b => b
  | VInt n => negb (Z.eqb n 0)
  | VStr s => negb (String.eqb s "")
  | VList xs => match xs with [] => false | _ => true end
  | VDict d => match d with [] => false | _ => true end
  | VModel _ n _ => negb (Nat.eqb n 0)
  | _ => true
  end.

Definition key_truthy (k : key) : bool :=
  match k with
  | KStr s => negb (String.eqb s "")
  | KInt n => negb (Z.eqb n 0)
  end.

(** [a or b] *)
Definition py_or (a b : value) : value := if truthy a then a else b.


Definition is_list (v : value) : bool :=
  match v with VList _ => true | _ => false end.

Definition is_none (v : value) : bool :=
  match v with VNone => true | _ => false end.

(** ** Dictionaries *)

Fixpoint dict_get {A} (k : key) (d : list (key * A)) : option A :=
  match d with
  | [] => None
  | (k', v) :: d' => if decide (k = k') then Some v else dict_get k d'
  end.

(** [d[k] = v]: an existing key keeps its place, a new one goes last. *)
Fixpoint dict_set {A} (k : key) (v : A) (d : list (key * A)) : list (key * A) :=
  match d with
  | [] => [(k, v)]
  | (k', v') :: d' =>
      if decide (k = k') then (k, v) :: d' else (k', v') :: dict_set k v d'
  end.

Fixpoint dict_del {A} (k : key) (d : list (key * A)) : list (key * A) :=
  match d with
  | [] => []
  | (k', v') :: d' =>
      if decide (k = k') then d' else (k', v') :: dict_del k d'
  end.

Definition dict_has {A} (k : key) (d : list (key * A)) : bool :=
  match dict_get k d with Some _ => true | None => false end.

Definition keys {A} (d : list (key * A)) : list key := map fst d.

(** [d.update(other)] *)
Definition dict_update {A} (d other : list (key * A)) : list (key * A) :=
  fold_left (fun acc kv => dict_set (fst kv) (snd kv) acc) other d.

(** [d[k]] on a value known to be there, [KeyError] otherwise. *)
Definition getitem (k : string) (d : dict) : result value :=
  match dict_get k d with
  | Some v => Ok v
  | None => Err (KeyError k)
  end.

(** [d.get(k, default)] *)
Definition get_default (k : key) (default : value) (d : dict) : value :=
  match dict_get k d with
  | Some v => v
  | None => default
  end.

(** ** The helpers of [flask_restplus.utils] *)

(** Modelled from the spec: [utils.not_none] is not among the sources.  It
    keeps the entries whose value is not [None], as its name says; the
    callers in [swagger.py] write [x or None] for each entry that must
    also disappear when it is empty. *)
Definition not_none (d : dict) : dict :=
  List.filter (fun kv => negb (is_none (snd kv))) d.

(** Order on dictionary keys, for [sorted]: integers before strings (the
    order of Python 2), integers by value and strings by code point. *)
Definition key_leb (a b : key) : bool :=
  match a, b with
  | KInt x, KInt y => Z.leb x y
  | KInt _, KStr _ => true
  | KStr _, KInt _ => false
  | KStr x, KStr y => String.leb x y
  end.

Fixpoint sorted_insert (kv : key * value) (d : dict) : dict :=
  match d with
  | [] => [kv]
  | kv' :: d' =>
      if key_leb (fst kv) (fst kv') then kv :: d else kv' :: sorted_insert kv d'
  end.

Definition sorted_items (d : dict) : dict :=
  fold_right sorted_insert [] d.

(** Modelled from the spec: [utils.not_none_sorted] is not among the
    sources.  The entries sorted by key, those whose value is [None]
    dropped. *)
Definition not_none_sorted (d : dict) : dict :=
  not_none (sorted_items d).

(** Modelled from the spec: the loop of [utils.merge], which is not among
    the sources.  The entries of the second mapping override those of a
    copy of the first; where both hold a mapping under one key the two
    are merged by the same rule, so that a declared description completes
    a path parameter instead of replacing it. *)
Definition merge_items (merge_value : value -> value -> value)
  : dict -> dict -> dict :=
  fix go (second result : dict) {struct second} : dict :=
    match second with
    | [] => result
    | (k, v) :: rest =>
        go rest
          (match dict_get k result with
           | Some (VDict r) => dict_set k (merge_value (VDict r) v) result
           | _ => dict_set k v result
           end)
    end.

(** Modelled from the spec: [utils.merge], which is not among the
    sources, on a first operand that is a mapping.  A second operand
    that is not a mapping is the result ([extract_resource_doc] tests the
    result against [False]). *)
Fixpoint merge_value (first second : value) {struct second} : value :=
  match second with
  | VDict s =>
      match first with
      | VDict f => VDict (merge_items merge_value s f)
      | _ => first
      end
  | _ => second
  end.

(** Modelled from the spec: [utils.merge], which is not among the
    sources.  A first operand that is not a mapping cannot receive the
    entries of the second. *)
Definition merge (first second : value) : result value :=
  match second with
  | VDict s =>
      match first, s with
      | VDict _, _ => Ok (merge_value first second)
      | _, [] => Ok first
      | _, _ => Err TypeError
      end
  | _ => Ok second
  end.

(** ** Constant tables *)

(** [PATH_TYPES]: Flask/Werkzeug converter names to Swagger types.  The
    key [None] is the absent converter. *)
Definition PATH_TYPES (descriptor : option string) : option string :=
  match descriptor with
  | None => Some "string"
  | Some d =>
      if String.eqb d "int" then Some "integer"
      else if String.eqb d "float" then Some "number"
      else if String.eqb d "string" then Some "string"
      else None
  end.

(** [LOCATIONS]: RequestParser locations to Swagger ones. *)
Definition LOCATIONS : list (string * string) :=
  [("args", "query"); ("form", "formData"); ("headers", "header");
   ("json", "body"); ("values", "query"); ("files", "formData")].

Fixpoint assoc (k : string) (l : list (string * string)) : option string :=
  match l with
  | [] => None
  | (k', v) :: l' => if String.eqb k k' then Some v else assoc k l'
  end.

(** [LOCATIONS.get(location, 'query')]; a location that is not a string
    (a tuple of locations) is no key of the table. *)
Definition LOCATIONS_get (location : value) : string :=
  match location with
  | VStr l => match assoc l LOCATIONS with Some v => v | None => "query" end
  | _ => "query"
  end.

(** [PY_TYPES]: Python primitive types to Swagger ones. *)
Definition PY_TYPES (v : value) : option string :=
  match v with
  | VType TInt => Some "integer"
  | VType TStr => Some "string"
  | VType TBool => Some "boolean"
  | VNone => Some "void"
  | _ => None
  end.

Definition DEFAULT_RESPONSE_DESCRIPTION : string := "Success".
Definition DEFAULT_RESPONSE : dict :=
  [(KStr "description", VStr DEFAULT_RESPONSE_DESCRIPTION)].

(** [value == s] for a string literal [s] *)
Definition eq_str (v : value) (s : string) : bool :=
  match v with
  | VStr s' => String.eqb s' s
  | _ => false
  end.

(** [isinstance(v, Hashable)]: lists, dicts and models (which are dicts)
    are not. *)
Definition hashable (v : value) : bool :=
  match v with
  | VList _ | VDict _ | VModel _ _ _ => false
  | _ => true
  end.

(** [hasattr(v, '__apidoc__')] with the attribute.  A Model carries
    [{'name': name}]. *)
Definition attr_apidoc (v : value) : option value :=
  match v with
  | VObject a _ => a
  | VModel n _ _ => Some (VDict [(KStr "name", VStr n)])
  | _ => None
  end.

(** [hasattr(v, '__schema__')] with the attribute. *)
Definition attr_schema (v : value) : option value :=
  match v with
  | VObject _ s => s
  | VModel _ _ s => Some s
  | VField false s => Some s
  | _ => None
  end.

(** [ref(model)]: a reference to a model in the definitions. *)
Definition ref (name : string) : value :=
  VDict [(KStr "$ref", VStr ("#/definitions/" +:+ name))].

(** [_v(value)]: dereference a callable. *)
Definition _v (v : value) : value :=
  match v with
  | VCallable r => r
  | _ => v
  end.

(** ** URL patterns *)

Definition is_angle (c : ascii) : bool :=
  (Ascii.eqb c "<" || Ascii.eqb c ">")%char.

(** [RE_PARAMS.findall(path)] for
    [RE_PARAMS = <((?:[^:<>]+:)?[^<>]+)>].  The group captures a
    non-empty run of characters other than [<] and [>] that stands
    between a [<] and a [>]; the optional converter part does not change
    what is captured.  [cur] is the run read since the last [<], when
    there is one. *)
Fixpoint findall_params (cur : option string) (path : string) : list string :=
  match path with
  | EmptyString => []
  | String c rest =>
      if Ascii.eqb c "<" then findall_params (Some "") rest
      else if Ascii.eqb c ">" then
        match cur with
        | Some (String a run) => String a run :: findall_params None rest
        | _ => findall_params None rest
        end
      else
        match cur with
        | Some run => findall_params (Some (run +:+ String c "")) rest
        | None => findall_params None rest
        end
  end.

(** [s.split(':')] *)
Fixpoint split_colon (cur : string) (s : string) : list string :=
  match s with
  | EmptyString => [cur]
  | String c rest =>
      if Ascii.eqb c ":" then cur :: split_colon "" rest
      else split_colon (cur +:+ String c "") rest
  end.

(** [descriptor, name = match.split(':') if ':' in match else (None, match)] *)
Definition split_descriptor (m : string) : result (option string * string) :=
  match split_colon "" m with
  | [name] => Ok (None, name)
  | [descriptor; name] => Ok (Some descriptor, name)
  | _ => Err (ValueError Unpack)
  end.

(** The application: the converters of its URL map and its configuration. *)
Record App : Type := {
  converters : list string;
  config : dict
}.

Definition path_param (name type : string) : value :=
  VDict [(KStr "name", VStr name); (KStr "in", VStr "path");
         (KStr "required", VBool true); (KStr "type", VStr type)].

(** The body of the loop of [extract_path_params], for one match. *)
Definition path_param_of (app : App) (m : string) : result (string * value) :=
  do (descriptor, name) <- split_descriptor m;
  match PATH_TYPES descriptor with
  | Some t => Ok (name, path_param name t)
  | None =>
      match descriptor with
      | Some d =>
          if bool_decide (d ∈ converters app) then Ok (name, path_param name "string")
          else Err (ValueError UnsupportedConverter)
      | None => Err (ValueError UnsupportedConverter)
      end
  end.

Fixpoint extract_path_params_loop (app : App) (ms : list string) (params : dict)
  : result dict :=
  match ms with
  | [] => Ok params
  | m :: ms' =>
      do (name, param) <- path_param_of app m;
      extract_path_params_loop app ms' (dict_set (KStr name) param params)
  end.

(** Extract Flask-style parameters from an URL pattern as Swagger ones. *)
Definition extract_path_params (app : App) (path : string) : result dict :=
  extract_path_params_loop app (findall_params None path) [].

(** ** Request parsers *)

(** [param.update(schema)] for a mapping [schema] *)
Definition update_with (param : dict) (schema : value) : result dict :=
  match schema with
  | VDict s => Ok (dict_update param s)
  | _ => Err TypeError
  end.

Definition _handle_arg_type (arg : argument) (param : dict) : result dict :=
  match (if hashable (arg_type arg) then PY_TYPES (arg_type arg) else None) with
  | Some t => Ok (dict_set (KStr "type") (VStr t) param)
  | None =>
      match attr_apidoc (arg_type arg) with
      | Some apidoc =>
          match apidoc with
          | VDict a =>
              do name <- getitem "name" a;
              Ok (dict_set (KStr "in") (VStr "body")
                    (dict_set (KStr "type") name param))
          | _ => Err TypeError
          end
      | None =>
          match attr_schema (arg_type arg) with
          | Some schema => update_with param schema
          | None =>
              if eq_str (arg_location arg) "files"
              then Ok (dict_set (KStr "type") (VStr "file") param)
              else Ok (dict_set (KStr "type") (VStr "string") param)
          end
      end
  end.

(** The parameter that the loop of [parser_to_params] builds for one
    argument whose location is not ['cookie']. *)
Definition arg_to_param (arg : argument) : result dict :=
  let param := [(KStr "in", VStr (LOCATIONS_get (arg_location arg)))] in
  do param <- _handle_arg_type arg param;
  let param :=
    if truthy (arg_required arg)
    then dict_set (KStr "required") (VBool true) param else param in
  let param :=
    if truthy (arg_help arg)
    then dict_set (KStr "description") (arg_help arg) param else param in
  let param :=
    if truthy (arg_default arg)
    then dict_set (KStr "default") (arg_default arg) param else param in
  do param <-
    (if eq_str (arg_action arg) "append" then
       do t <- getitem "type" param;
       Ok (dict_set (KStr "collectionFormat") (VStr "multi")
             (dict_set (KStr "type") (VStr "array")
                (dict_set (KStr "items") (VDict [(KStr "type", t)]) param)))
     else Ok param);
  let param :=
    if truthy (arg_choices arg)
    then dict_set (KStr "collectionFormat") (VStr "multi")
           (dict_set (KStr "enum") (arg_choices arg) param)
    else param in
  Ok param.

(** [locations.add(param['in'])] on the set of the locations seen so far *)
Definition locations_add (param : dict) (locations : list value)
  : result (list value) :=
  do loc <- getitem "in" param;
  if hashable loc then Ok (loc :: locations) else Err TypeError.

Definition has_location (l : string) (locations : list value) : bool :=
  existsb (fun v => eq_str v l) locations.

Definition conflict_message : string :=
  "Can't use formData and body at the same time".

Fixpoint parser_to_params_loop (args : list argument) (params : dict)
  (locations : list value) : result (dict * list value) :=
  match args with
  | [] => Ok (params, locations)
  | arg :: args' =>
      if eq_str (arg_location arg) "cookie"
      then parser_to_params_loop args' params locations
      else
        do param <- arg_to_param arg;
        let params := dict_set (KStr (arg_name arg)) (VDict param) params in
        do locations <- locations_add param locations;
        parser_to_params_loop args' params locations
  end.

(** Extract Swagger parameters from a RequestParser. *)
Definition parser_to_params (args : list argument) : result dict :=
  do (params, locations) <- parser_to_params_loop args [] [];
  if has_location "body" locations && has_location "formData" locations
  then Err (SpecsError conflict_message)
  else Ok params.

Definition _param_to_header (param : dict) : result dict :=
  let param := dict_del (KStr "in") param in
  let typedef := get_default (KStr "type") (VStr "string") param in
  match (if hashable typedef then PY_TYPES typedef else None) with
  | Some t => Ok (dict_set (KStr "type") (VStr t) param)
  | None =>
      match attr_schema typedef with
      | Some schema => update_with param schema
      | None => Ok (dict_set (KStr "type") typedef param)
      end
  end.

(** ** State

    A computation that reads and updates a state and may raise.  The state
    reached when an exception is raised is kept: what was written before
    stays written. *)

Definition M (S A : Type) : Type := S -> S * result A.

Definition ret {S A} (a : A) : M S A := fun s => (s, Ok a).

Definition raise {S A} (e : error) : M S A := fun s => (s, Err e).

Definition lift {S A} (r : result A) : M S A := fun s => (s, r).

(** Read the state. *)
Definition gets {S A} (f : S -> result A) : M S A := fun s => (s, f s).

Definition sbind {S A B} (m : M S A) (f : A -> M S B) : M S B :=
  fun s =>
    match m s with
    | (s', Ok a) => f a s'
    | (s', Err e) => (s', Err e)
    end.

Notation "'exec' x <- m ; k" := (sbind m (fun x => k))
  (at level 10, x pattern, m at level 100, k at level 200).

(** [for x in xs: body(x)] *)
Fixpoint for_each {S A} (xs : list A) (body : A -> M S unit) : M S unit :=
  match xs with
  | [] => ret tt
  | x :: xs' => exec _ <- body x; for_each xs' body
  end.

(** ** Models and fields *)

Module fields.
Inductive field : Type :=
| Polymorph (mapping : list (string * value))   (* class name to model *)
| Nested (nested : value)
| List (container : field)
| Raw (schema : value).
End fields.
Abbreviation field := fields.field.

(** A [Model] registered on the API: a mapping from field names to fields
    with a name, a parent and a schema. *)
Record Model : Type := {
  name : string;
  __parent__ : value;
  items : list (string * field);
  __schema__ : value
}.

(** An entry of [api.models]: a [Model], or any other object with its
    [__schema__] attribute. *)
Inductive spec : Type :=
| SModel (m : Model)
| SObject (schema : option value).

Abbreviation registry := (gmap string spec).

(** [model.name if isinstance(model, Model) else model] *)
Definition name_of (model : value) : value :=
  match model with
  | VModel n _ _ => VStr n
  | _ => model
  end.

(** [self.api.models[name]], after the test [name not in self.api.models]. *)
Definition find_model (models : gmap string spec) (name : value)
  : result (string * spec) :=
  match name with
  | VStr n =>
      match models !! n with
      | Some specs => Ok (n, specs)
      | None => Err (ValueError (ModelNotRegistered name))
      end
  | VList _ | VDict _ => Err TypeError
  | _ => Err (ValueError (ModelNotRegistered name))
  end.

Section Register.
Variable models : gmap string spec.

(** [register_field], over the [register_model] that it calls. *)
Fixpoint register_field (register_model : value -> M registry value)
  (f : field) : M registry unit :=
  match f with
  | fields.Polymorph mapping =>
      for_each (map snd mapping)
        (fun model => exec _ <- register_model model; ret tt)
  | fields.Nested nested => exec _ <- register_model nested; ret tt
  | fields.List container => register_field register_model container
  | fields.Raw _ => ret tt
  end.

(** The body of [register_model], over the [register_model] of its
    nested calls. *)
Definition register_model_with (recur : value -> M registry value)
  (model : value) : M registry value :=
  exec (name, specs) <- lift (find_model models (name_of model));
  exec _ <- (fun reg => (<[name := specs]> reg, Ok tt));
  exec _ <-
    match specs with
    | SModel m =>
        exec _ <-
          (if truthy (__parent__ m)
           then exec _ <- recur (__parent__ m); ret tt
           else ret tt);
        for_each (map snd (items m)) (register_field recur)
    | SObject _ => ret tt
    end;
  ret (ref name).

(** [register_model].  [fuel] bounds the depth of the nested calls: the
    source recurses without a bound of its own, and the interpreter
    raises when its recursion limit is reached. *)
Fixpoint register_model (fuel : nat) (model : value) : M registry value :=
  register_model_with
    (match fuel with
     | O => fun _ => raise RecursionError
     | S fuel' => register_model fuel'
     end) model.

(** [serialize_schema] *)
Fixpoint serialize_schema (fuel : nat) (model : value) : M registry value :=
  match model with
  | VList xs =>
      match xs with
      | [] => raise IndexError
      | model :: _ =>
          exec items <- serialize_schema fuel model;
          ret (VDict [(KStr "type", VStr "array"); (KStr "items", items)])
      end
  | VModel _ _ _ => register_model fuel model
  | VStr _ => register_model fuel model
  | VField _ schema => ret schema
      (* a class is instantiated first; an instance gives its __schema__ *)
  | _ =>
      match PY_TYPES model with
      | Some t => ret (VDict [(KStr "type", VStr t)])
      | None => raise (ValueError (ModelNotRegistered model))
      end
  end.

(** [model.__schema__] for an entry of the registry *)
Definition schema_of (specs : spec) : option value :=
  match specs with
  | SModel m => Some (__schema__ m)
  | SObject s => s
  end.

Fixpoint definitions_of (entries : list (string * spec)) : result dict :=
  match entries with
  | [] => Ok []
  | (name, specs) :: rest =>
      match schema_of specs with
      | Some s => do d <- definitions_of rest; Ok ((KStr name, s) :: d)
      | None => Err AttributeError
      end
  end.

(** [serialize_definitions] *)
Definition serialize_definitions (reg : registry) : result dict :=
  definitions_of (map_to_list reg).
End Register.

(** ** Documented objects *)

(** What [parse_docstring] extracts from the docstring of an object.
    [getdoc] and the regular expressions are not embedded: an object
    comes with the raw docstring ([None] when it has none), the summary,
    the details and the [:raises:] annotations found in it. *)
Record docstring : Type := {
  raw : value;
  summary : value;
  details : value;
  raises : list (string * string)
}.

Definition raises_value (rs : list (string * string)) : value :=
  VDict (map (fun r => (KStr (fst r), VStr (snd r))) rs).

Definition parse_docstring (d : docstring) : value :=
  VDict [(KStr "raw", raw d);
         (KStr "summary", py_or (summary d) VNone);
         (KStr "details", py_or (details d) VNone);
         (KStr "returns", VNone);
         (KStr "params", VList []);
         (KStr "raises", raises_value (raises d))].

(** A method handler of a resource: its [__apidoc__] attribute when it
    has one, and its docstring. *)
Record method_impl : Type := {
  impl_apidoc : option value;
  impl_doc : docstring
}.

(** A resource class: [__name__], the [__apidoc__] attribute when the
    class has one, [methods], and the handlers by attribute name. *)
Record resource : Type := {
  res_name : string;
  res_apidoc : option value;
  res_methods : value;
  res_attrs : list (string * method_impl)
}.

(** An error handler registered on the API, with the name of its
    exception class. *)
Record handler : Type := {
  handler_exception : string;
  handler_apidoc : option value;
  handler_doc : docstring
}.

(** A namespace; [ns_resources] maps an endpoint to the address of its
    resource class and its URLs. *)
Record namespace : Type := {
  ns_name : string;
  ns_description : value;
  ns_resources : list (string * (nat * list string))
}.

(** The API object, as far as the serializer reads it. *)
Record Api : Type := {
  base_path : string;
  title : value;
  version : value;
  description : value;
  terms_url : value;
  contact : value;
  contact_email : value;
  contact_url : value;
  license : value;
  license_url : value;
  tags : list value;
  namespaces : list namespace;
  representations : list value;
  authorizations : value;
  security : value;
  models : gmap string spec;
  blueprint : option value;      (* the subdomain of the blueprint *)
  default_id : value -> string -> value
}.

(** What a serialization can write to: the resource classes (by
    address), the error handlers, and the registry of the [Swagger]
    instance. *)
Record world : Type := {
  classes : list resource;
  handlers : list handler;
  _registered_models : registry
}.

Definition with_registry {A} (m : M registry A) : M world A :=
  fun w =>
    let (reg, r) := m (_registered_models w) in
    ({| classes := classes w; handlers := handlers w;
        _registered_models := reg |}, r).

Definition set_class (addr : nat) (r : resource) : M world unit :=
  fun w =>
    ({| classes := <[addr := r]> (classes w); handlers := handlers w;
        _registered_models := _registered_models w |}, Ok tt).

Definition set_handlers (hs : list handler) : M world unit :=
  fun w =>
    ({| classes := classes w; handlers := hs;
        _registered_models := _registered_models w |}, Ok tt).

Definition get_class (addr : nat) : M world resource :=
  gets (fun w =>
          match classes w !! addr with
          | Some r => Ok r
          | None => Err AttributeError
          end).

(** ** String helpers *)

Definition lower_ascii (c : ascii) : ascii :=
  let n := nat_of_ascii c in
  if (65 <=? n)%nat && (n <=? 90)%nat then ascii_of_nat (n + 32) else c.

(** [s.lower()] *)
Fixpoint lower (s : string) : string :=
  match s with
  | EmptyString => EmptyString
  | String c s' => String (lower_ascii c) (lower s')
  end.

Definition is_space (c : ascii) : bool :=
  let n := nat_of_ascii c in
  (n =? 32)%nat || ((9 <=? n)%nat && (n <=? 13)%nat).

Fixpoint lstrip (s : string) : string :=
  match s with
  | EmptyString => EmptyString
  | String c s' => if is_space c then lstrip s' else s
  end.

Fixpoint rstrip (s : string) : string :=
  match s with
  | EmptyString => EmptyString
  | String c s' =>
      match rstrip s' with
      | EmptyString => if is_space c then EmptyString else String c EmptyString
      | t => String c t
      end
  end.

(** [s.strip()] *)
Definition strip (s : string) : string := rstrip (lstrip s).

(** [sep.join(parts)] *)
Fixpoint join (sep : string) (parts : list string) : string :=
  match parts with
  | [] => ""
  | [p] => p
  | p :: rest => p +:+ sep +:+ join sep rest
  end.

(** ** Resource documentation *)

Section Swagger.
Variable app : App.
Variable api : Api.
Variable fuel : nat.

Definition payload (schema description : value) : value :=
  VDict [(KStr "payload",
          VDict (not_none
                   [(KStr "name", VStr "payload");
                    (KStr "required", VBool true);
                    (KStr "in", VStr "body");
                    (KStr "schema", schema);
                    (KStr "description", description)]))].

(** [model, description = doc['body']] when it is a pair, and
    [doc['body'], None] otherwise *)
Definition body_parts (body : value) : value * value :=
  match body with
  | VList [model; description] => (model, description)
  | _ => (body, VNone)
  end.

Definition merge_params (params : value) (doc : dict) : M world value :=
  if negb (dict_has (KStr "params") doc) && negb (dict_has (KStr "parser") doc)
     && negb (dict_has (KStr "body") doc)
  then ret params
  else
    exec params <-
      match dict_get (KStr "parser") doc with
      | Some (VParser args) =>
          exec parsed <- lift (parser_to_params args);
          lift (merge params (VDict parsed))
      | Some _ => raise AttributeError
      | None => ret params
      end;
    exec params <-
      match dict_get (KStr "params") doc with
      | Some declared => lift (merge params declared)
      | None => ret params
      end;
    match dict_get (KStr "body") doc with
    | Some body =>
        let (model, description) := body_parts body in
        exec schema <- with_registry (serialize_schema (models api) fuel model);
        lift (merge params (payload schema description))
    | None => ret params
    end.

(** [[m.lower() for m in resource.methods or []]] *)
Definition method_names (methods : value) : result (list string) :=
  match py_or methods (VList []) with
  | VList ms =>
      (fix go (ms : list value) : result (list string) :=
         match ms with
         | [] => Ok []
         | VStr m :: ms' => do rest <- go ms'; Ok (lower m :: rest)
         | _ => Err AttributeError
         end) ms
  | _ => Err TypeError
  end.

(** [doc[k] = v] for the [doc] of [extract_resource_doc]: the mapping
    is the [__apidoc__] of the class itself when the class has one
    ([shared]), and the assignment is then seen through the class. *)
Definition doc_setitem (addr : nat) (shared : bool) (k : key) (v : value)
  (doc : dict) : M world dict :=
  let doc := dict_set k v doc in
  if shared then
    exec r <- get_class addr;
    exec _ <- set_class addr
               {| res_name := res_name r; res_apidoc := Some (VDict doc);
                  res_methods := res_methods r; res_attrs := res_attrs r |};
    ret doc
  else ret doc.

Fixpoint assoc_impl (k : string) (l : list (string * method_impl))
  : option method_impl :=
  match l with
  | [] => None
  | (k', v) :: l' => if String.eqb k k' then Some v else assoc_impl k l'
  end.

(** The body of the loop of [extract_resource_doc] over the methods. *)
Definition extract_method_doc (r : resource) (addr : nat) (shared : bool)
  (method : string) (doc : dict) : M world dict :=
  let method_doc := get_default (KStr method) (VDict []) doc in
  match assoc_impl method (res_attrs r) with
  | None => raise AttributeError
  | Some method_impl =>
      exec method_doc <-
        lift (merge method_doc
                (match impl_apidoc method_impl with
                 | Some a => a
                 | None => VDict []
                 end));
      exec method_doc <-
        match method_doc with
        | VBool false => ret method_doc
        | VDict md =>
            let md := dict_set (KStr "docstring")
                        (parse_docstring (impl_doc method_impl)) md in
            exec params <- merge_params (VDict []) md;
            ret (VDict (dict_set (KStr "params") params md))
        | _ => raise TypeError
        end;
      doc_setitem addr shared (KStr method) method_doc doc
  end.

Fixpoint extract_methods_doc (r : resource) (addr : nat) (shared : bool)
  (methods : list string) (doc : dict) : M world dict :=
  match methods with
  | [] => ret doc
  | method :: rest =>
      exec doc <- extract_method_doc r addr shared method doc;
      extract_methods_doc r addr shared rest doc
  end.

(** [extract_resource_doc] for the class at [addr]. *)
Definition extract_resource_doc (addr : nat) (url : string) : M world value :=
  exec r <- get_class addr;
  let (shared, doc) :=
    match res_apidoc r with
    | Some d => (true, d)
    | None => (false, VDict [])
    end in
  match doc with
  | VBool false => ret (VBool false)
  | VDict doc =>
      exec doc <- doc_setitem addr shared (KStr "name") (VStr (res_name r)) doc;
      exec path_params <- lift (extract_path_params app url);
      exec params <- merge_params (VDict path_params) doc;
      exec doc <- doc_setitem addr shared (KStr "params") params doc;
      exec methods <- lift (method_names (res_methods r));
      exec doc <- extract_methods_doc r addr shared methods doc;
      ret (VDict doc)
  | _ => raise TypeError
  end.

(** *** Responses *)

Definition key_value (k : key) : value :=
  match k with
  | KStr s => VStr s
  | KInt n => VInt n
  end.

(** [str(v)] for the values that a response code can be; the text that
    Python gives for other objects is not embedded. *)
Definition py_str (v : value) : string :=
  match v with
  | VStr s => s
  | VInt n => DecimalString.NilZero.string_of_int (Z.to_int n)
  | VNone => "None"
  | VBool true => "True"
  | VBool false => "False"
  | _ => "<object>"
  end.

(** A mapping, where the source needs one. *)
Definition as_dict_of (v : value) (e : error) : result dict :=
  match v with
  | VDict d => Ok d
  | _ => Err e
  end.

(** [a, b = v]: a sequence of two elements; a mapping gives its keys and
    a string its characters. *)
Definition unpack_pair (v : value) : result (value * value) :=
  match v with
  | VList [a; b] => Ok (a, b)
  | VDict [(k1, _); (k2, _)] => Ok (key_value k1, key_value k2)
  | VStr (String a (String b EmptyString)) =>
      Ok (VStr (String a EmptyString), VStr (String b EmptyString))
  | VList _ | VDict _ | VStr _ => Err (ValueError Unpack)
  | _ => Err TypeError
  end.

(** [description, model = (response, None) if isinstance(response,
    string_types) else response] *)
Definition response_parts (response : value) : result (value * value) :=
  match response with
  | VStr _ => Ok (response, VNone)
  | _ => unpack_pair response
  end.

(** [responses[code][k] = v] *)
Definition response_set (code k : key) (v : value) (responses : dict)
  : result dict :=
  match dict_get code responses with
  | Some (VDict r) => Ok (dict_set code (VDict (dict_set k v r)) responses)
  | _ => Err TypeError
  end.

(** The loop over [d['responses']]. *)
Fixpoint declared_responses (entries : dict) (responses : dict) : M world dict :=
  match entries with
  | [] => ret responses
  | (code, response) :: rest =>
      exec (description, model) <- lift (response_parts response);
      let description := py_or description (VStr DEFAULT_RESPONSE_DESCRIPTION) in
      exec responses <-
        (if dict_has code responses
         then lift (response_set code (KStr "description") description responses)
         else ret (dict_set code (VDict [(KStr "description", description)])
                     responses));
      exec responses <-
        (if truthy model then
           exec schema <- with_registry (serialize_schema (models api) fuel model);
           lift (response_set code (KStr "schema") schema responses)
         else ret responses);
      declared_responses rest responses
  end.

(** [code = list(error_responses.keys())[0] if error_responses else None]
    for a handler *)
Definition handler_code (h : handler) : result (option key) :=
  let apidoc := match handler_apidoc h with Some a => a | None => VDict [] end in
  do a <- as_dict_of apidoc AttributeError;
  let error_responses := get_default (KStr "responses") (VDict []) a in
  if truthy error_responses then
    do er <- as_dict_of error_responses AttributeError;
    match er with
    | (code, _) :: _ => Ok (Some code)
    | [] => Err IndexError
    end
  else Ok None.

(** The loop over the error handlers for one raised exception [name]:
    the first handler of that exception that documents a response gives
    the reference. *)
Fixpoint raised_response (name : string) (hs : list handler) (responses : dict)
  : result dict :=
  match hs with
  | [] => Ok responses
  | h :: hs' =>
      do code <- handler_code h;
      match code with
      | Some code =>
          if key_truthy code && String.eqb (handler_exception h) name
          then Ok (dict_set code
                     (VDict [(KStr "$ref", VStr ("#/responses/" +:+ name))])
                     responses)
          else raised_response name hs' responses
      | None => raised_response name hs' responses
      end
  end.

Fixpoint raised_responses (raised : dict) (hs : list handler) (responses : dict)
  : result dict :=
  match raised with
  | [] => Ok responses
  | (name, _) :: rest =>
      do responses <- raised_response (py_str (key_value name)) hs responses;
      raised_responses rest hs responses
  end.

(** The body of the loop [for d in doc, doc[method]]. *)
Definition responses_from (d : dict) (responses : dict) : M world dict :=
  exec responses <-
    match dict_get (KStr "responses") d with
    | Some rs =>
        exec entries <- lift (as_dict_of rs AttributeError);
        declared_responses entries responses
    | None => ret responses
    end;
  exec responses <-
    match dict_get (KStr "model") d with
    | Some model =>
        let code := KStr (py_str (get_default (KStr "default_code") (VInt 200) d)) in
        let responses :=
          if dict_has code responses then responses
          else dict_set code (VDict DEFAULT_RESPONSE) responses in
        exec schema <- with_registry (serialize_schema (models api) fuel model);
        lift (response_set code (KStr "schema") schema responses)
    | None => ret responses
    end;
  match dict_get (KStr "docstring") d with
  | Some doc =>
      exec doc <- lift (as_dict_of doc TypeError);
      exec raised <- lift (getitem "raises" doc);
      exec raised <- lift (as_dict_of raised AttributeError);
      gets (fun w => raised_responses raised (handlers w) responses)
  | None => ret responses
  end.

Definition responses_for (doc : dict) (method : string) : M world dict :=
  exec method_doc <- lift (getitem method doc);
  exec method_doc <- lift (as_dict_of method_doc TypeError);
  exec responses <- responses_from doc [];
  exec responses <- responses_from method_doc responses;
  match responses with
  | [] => ret [(KStr "200", VDict DEFAULT_RESPONSE)]
  | _ => ret responses
  end.

(** *** Operations *)

(** [doc[method]], which is a mapping when an operation is serialized *)
Definition method_doc_of (doc : dict) (method : string) : result dict :=
  do md <- getitem method doc;
  as_dict_of md TypeError.

Definition docstring_of (d : dict) : result dict :=
  do ds <- getitem "docstring" d;
  as_dict_of ds TypeError.

Definition as_string (v : value) : result string :=
  match v with
  | VStr s => Ok s
  | _ => Err TypeError
  end.

Fixpoint as_strings (vs : list value) : result (list string) :=
  match vs with
  | [] => Ok []
  | v :: vs' => do s <- as_string v; do rest <- as_strings vs'; Ok (s :: rest)
  end.

(** Extract the description metadata and fall back on the whole
    docstring. *)
Definition description_for (doc : dict) (method : string) : result value :=
  let parts :=
    match dict_get (KStr "description") doc with
    | Some d => [d]
    | None => []
    end in
  let parts :=
    match dict_get (KStr method) doc with
    | Some (VDict md) =>
        match dict_get (KStr "description") md with
        | Some d => parts ++ [d]
        | None => parts
        end
    | _ => parts
    end in
  do md <- method_doc_of doc method;
  do ds <- docstring_of md;
  do details <- getitem "details" ds;
  let parts := if truthy details then parts ++ [details] else parts in
  do parts <- as_strings parts;
  Ok (VStr (strip (join (String "010"%char "") parts))).

(** Extract the operation id. *)
Definition operation_id_for (doc : dict) (method : string) : result value :=
  do md <- method_doc_of doc method;
  match dict_get (KStr "id") md with
  | Some id => Ok id
  | None => do name <- getitem "name" doc; Ok (default_id api name method)
  end.

(** The body of the loop of [parameters_for], for one merged entry. *)
Definition parameter_of (name : key) (param : value) : result value :=
  do param <- as_dict_of param TypeError;
  let param := dict_set (KStr "name") (key_value name) param in
  let param :=
    if negb (dict_has (KStr "type") param) && negb (dict_has (KStr "schema") param)
    then dict_set (KStr "type") (VStr "string") param else param in
  let param :=
    if negb (dict_has (KStr "in") param)
    then dict_set (KStr "in") (VStr "query") param else param in
  if dict_has (KStr "type") param && negb (dict_has (KStr "schema") param) then
    let ptype := get_default (KStr "type") VNone param in
    match ptype with
    | VList [] => Err IndexError
    | VList (typ :: _) =>
        if hashable typ then
          let t := match PY_TYPES typ with Some t => VStr t | None => typ end in
          Ok (VDict (dict_set (KStr "items") (VDict [(KStr "type", t)])
                       (dict_set (KStr "type") (VStr "array") param)))
        else Err TypeError
    | _ =>
        match PY_TYPES ptype with
        | Some t => Ok (VDict (dict_set (KStr "type") (VStr t) param))
        | None => Ok (VDict param)
        end
    end
  else Ok (VDict param).

Fixpoint parameters_of (entries : dict) : result (list value) :=
  match entries with
  | [] => Ok []
  | (name, param) :: rest =>
      do p <- parameter_of name param;
      do ps <- parameters_of rest;
      Ok (p :: ps)
  end.

(** The parameter of the fields mask header. *)
Definition mask_param (header mask : value) : value :=
  let param :=
    [(KStr "name", header); (KStr "in", VStr "header");
     (KStr "type", VStr "string"); (KStr "format", VStr "mask");
     (KStr "description", VStr "An optional fields mask")] in
  match mask with
  | VStr _ => VDict (dict_set (KStr "default") mask param)
  | _ => VDict param
  end.

Definition parameters_for (doc : dict) (method : string) : result (list value) :=
  do params <- getitem "params" doc;
  do md <- method_doc_of doc method;
  do method_params <- getitem "params" md;
  do merged <- merge params method_params;
  do merged <- as_dict_of merged AttributeError;
  do params <- parameters_of merged;
  let mask := py_or (get_default (KStr "__mask__") VNone doc)
                (get_default (KStr "__mask__") VNone md) in
  if truthy mask then
    do enabled <- getitem "RESTPLUS_MASK_SWAGGER" (config app);
    if truthy enabled then
      do header <- getitem "RESTPLUS_MASK_HEADER" (config app);
      Ok (params ++ [mask_param header mask])
    else Ok params
  else Ok params.

(** *** Security *)

Definition security_requirement (v : value) : value :=
  match v with
  | VStr s => VDict [(KStr s, VList [])]
  | VDict d =>
      VDict (map (fun kv => (fst kv,
                             if is_list (snd kv) then snd kv
                             else VList [snd kv])) d)
  | _ => VNone
  end.

Definition security_requirements (v : value) : value :=
  match v with
  | VList vs => VList (map security_requirement vs)
  | _ =>
      if truthy v then
        let requirement := security_requirement v in
        if truthy requirement then VList [requirement] else VNone
      else VList []
  end.

Definition security_for (doc : dict) (method : string) : result value :=
  let security :=
    match dict_get (KStr "security") doc with
    | Some auth => security_requirements auth
    | None => VNone
    end in
  do md <- method_doc_of doc method;
  match dict_get (KStr "security") md with
  | Some auth => Ok (security_requirements auth)
  | None => Ok security
  end.

(** [any(p[k] == s for p in parameters)] *)
Fixpoint any_param (k s : string) (parameters : list value) : result bool :=
  match parameters with
  | [] => Ok false
  | p :: rest =>
      do p <- as_dict_of p TypeError;
      do v <- getitem k p;
      if eq_str v s then Ok true else any_param k s rest
  end.

Definition serialize_operation (doc : dict) (method : string) : M world value :=
  exec responses <- responses_for doc method;
  exec md <- lift (method_doc_of doc method);
  exec ds <- lift (docstring_of md);
  exec summary <- lift (getitem "summary" ds);
  exec description <- lift (description_for doc method);
  exec operation_id <- lift (operation_id_for doc method);
  exec parameters <- lift (parameters_for doc method);
  exec security <- lift (security_for doc method);
  let operation :=
    [(KStr "responses", py_or (VDict responses) VNone);
     (KStr "summary", summary);
     (KStr "description", py_or description VNone);
     (KStr "operationId", operation_id);
     (KStr "parameters", py_or (VList parameters) VNone);
     (KStr "security", security)] in
  let operation :=
    if truthy (py_or (get_default (KStr "deprecated") VNone doc)
                 (get_default (KStr "deprecated") VNone md))
    then dict_set (KStr "deprecated") (VBool true) operation else operation in
  exec form <- lift (any_param "in" "formData" parameters);
  exec operation <-
    (if form then
       exec file <- lift (any_param "type" "file" parameters);
       if file
       then ret (dict_set (KStr "consumes") (VList [VStr "multipart/form-data"])
                   operation)
       else ret (dict_set (KStr "consumes")
                   (VList [VStr "application/x-www-form-urlencoded";
                           VStr "multipart/form-data"]) operation)
     else ret operation);
  ret (VDict (not_none operation)).

(** The loop of [serialize_resource] over the methods. *)
Fixpoint serialize_operations (ns : namespace) (doc : dict)
  (methods : list string) (operations : dict) : M world dict :=
  match methods with
  | [] => ret operations
  | method :: rest =>
      exec md <- lift (getitem method doc);
      match md with
      | VBool false => serialize_operations ns doc rest operations
      | _ =>
          exec operation <- serialize_operation doc method;
          exec operation <- lift (as_dict_of operation TypeError);
          let operation :=
            dict_set (KStr "tags") (VList [VStr (ns_name ns)]) operation in
          serialize_operations ns doc rest
            (dict_set (KStr method) (VDict operation) operations)
      end
  end.

Definition serialize_resource (ns : namespace) (addr : nat) (url : string)
  : M world value :=
  exec doc <- extract_resource_doc addr url;
  match doc with
  | VBool false => ret VNone
  | _ =>
      exec doc <- lift (as_dict_of doc TypeError);
      exec r <- get_class addr;
      exec methods <- lift (method_names (res_methods r));
      exec operations <- serialize_operations ns doc methods [];
      ret (VDict operations)
  end.

(** *** The specification *)

(** The name that [RE_URL] keeps from the run between [<] and [>]: what
    follows the converter and its colon, when both are there. *)
Fixpoint after_converter (seen : bool) (run : string) : option string :=
  match run with
  | EmptyString => None
  | String c rest =>
      if Ascii.eqb c ":" then
        match seen, rest with
        | true, String _ _ => Some rest
        | _, _ => None
        end
      else after_converter true rest
  end.

Definition url_name (run : string) : string :=
  match after_converter false run with
  | Some name => name
  | None => run
  end.

Definition pending (cur : option string) : string :=
  match cur with
  | Some run => String "<"%char run
  | None => ""
  end.

(** [RE_URL.sub(r'{\1}', path)] for [RE_URL = <(?:[^:<>]+:)?([^<>]+)>];
    [cur] as in [findall_params]. *)
Fixpoint extract_path_from (cur : option string) (path : string) : string :=
  match path with
  | EmptyString => pending cur
  | String c rest =>
      if Ascii.eqb c "<" then pending cur +:+ extract_path_from (Some "") rest
      else if Ascii.eqb c ">" then
        match cur with
        | Some (String a run) =>
            "{" +:+ url_name (String a run) +:+ "}" +:+ extract_path_from None rest
        | _ => pending cur +:+ String c (extract_path_from None rest)
        end
      else
        match cur with
        | Some run => extract_path_from (Some (run +:+ String c "")) rest
        | None => String c (extract_path_from None rest)
        end
  end.

(** Transform a Flask/Werkzeug URL pattern in a Swagger one. *)
Definition extract_path (path : string) : string := extract_path_from None path.

Definition get_host : result value :=
  let hostname := py_or (get_default (KStr "SERVER_NAME") VNone (config app)) VNone in
  match blueprint api with
  | Some subdomain =>
      if truthy hostname && truthy subdomain then
        do sub <- as_string subdomain;
        do host <- as_string hostname;
        Ok (VStr (join "." [sub; host]))
      else Ok hostname
  | None => Ok hostname
  end.

(** A declared tag as a mapping. *)
Definition tag_of (tag : value) : result dict :=
  match tag with
  | VStr _ => Ok [(KStr "name", tag)]
  | VList (name :: description :: _) =>
      Ok [(KStr "name", name); (KStr "description", description)]
  | VList _ => Err IndexError
  | VDict d =>
      if dict_has (KStr "name") d then Ok d
      else Err (ValueError (UnsupportedTag tag))
  | _ => Err (ValueError (UnsupportedTag tag))
  end.

(** The first loop of [extract_tags].  [by_name] gives the position in
    [tags] of the tag last declared under a name: the source keeps the
    mapping itself there, the same object that is in [tags]. *)
Fixpoint declared_tags (declared : list value) (tags : list dict)
  (by_name : list (key * nat)) : result (list dict * list (key * nat)) :=
  match declared with
  | [] => Ok (tags, by_name)
  | tag :: rest =>
      do tag <- tag_of tag;
      do name <- getitem "name" tag;
      do by_name <-
        match name with
        | VStr n => Ok (dict_set (KStr n) (length tags) by_name)
        | VInt n => Ok (dict_set (KInt n) (length tags) by_name)
        | VList _ | VDict _ | VModel _ _ _ => Err TypeError
        | _ => Ok by_name
        end;
      declared_tags rest (tags ++ [tag]) by_name
  end.

(** The second loop of [extract_tags]. *)
Fixpoint namespace_tags (nss : list namespace) (tags : list dict)
  (by_name : list (key * nat)) : list dict :=
  match nss with
  | [] => tags
  | ns :: rest =>
      match dict_get (KStr (ns_name ns)) by_name with
      | None =>
          namespace_tags rest
            (tags ++ [[(KStr "name", VStr (ns_name ns));
                       (KStr "description", ns_description ns)]]) by_name
      | Some i =>
          if truthy (ns_description ns) then
            namespace_tags rest
              (alter (dict_set (KStr "description") (ns_description ns)) i tags)
              by_name
          else namespace_tags rest tags by_name
      end
  end.

Definition extract_tags : result (list value) :=
  do (tags, by_name) <- declared_tags (tags api) [] [];
  Ok (map VDict (namespace_tags (namespaces api) tags by_name)).

(** The header parameters of a handler, each turned into a header in
    place: the [params] of the handler as the loop leaves them, and the
    [headers]. *)
Fixpoint headers_of (params : dict) : dict * result dict :=
  match params with
  | [] => ([], Ok [])
  | (n, o) :: rest =>
      match o with
      | VDict od =>
          if eq_str (get_default (KStr "in") VNone od) "header" then
            match _param_to_header od with
            | Ok h =>
                let (rest', headers) := headers_of rest in
                ((n, VDict h) :: rest',
                 do headers <- headers; Ok ((n, VDict h) :: headers))
            | Err e => ((n, VDict (dict_del (KStr "in") od)) :: rest, Err e)
            end
          else
            let (rest', headers) := headers_of rest in
            ((n, o) :: rest', headers)
      | _ => (params, Err AttributeError)
      end
  end.

Definition set_handler (i : nat) (h : handler) : M world unit :=
  exec hs <- gets (fun w => Ok (handlers w));
  set_handlers (<[i := h]> hs).

(** The body of the loop of [register_errors], for the handler [h] at
    position [i]. *)
Definition register_error (i : nat) (h : handler) : M world value :=
  let response := [(KStr "description", py_or (summary (handler_doc h)) VNone)] in
  let apidoc := match handler_apidoc h with Some a => a | None => VDict [] end in
  exec a <- lift (as_dict_of apidoc TypeError);
  exec response <-
    match dict_get (KStr "params") a with
    | Some params =>
        exec params <- lift (as_dict_of params AttributeError);
        let (params, headers) := headers_of params in
        exec _ <- set_handler i
                    {| handler_exception := handler_exception h;
                       handler_apidoc :=
                         Some (VDict (dict_set (KStr "params") (VDict params) a));
                       handler_doc := handler_doc h |};
        exec headers <- lift headers;
        ret (dict_set (KStr "headers") (VDict headers) response)
    | None => ret response
    end;
  exec response <-
    match dict_get (KStr "responses") a with
    | Some rs =>
        exec rs <- lift (as_dict_of rs AttributeError);
        match rs with
        | [] => raise IndexError
        | (_, r) :: _ =>
            exec (_, model) <- lift (unpack_pair r);
            exec schema <- with_registry (serialize_schema (models api) fuel model);
            ret (dict_set (KStr "schema") schema response)
        end
    | None => ret response
    end;
  ret (VDict (not_none response)).

Fixpoint register_errors_loop (i : nat) (hs : list handler) (responses : dict)
  : M world dict :=
  match hs with
  | [] => ret responses
  | h :: rest =>
      exec response <- register_error i h;
      register_errors_loop (S i) rest
        (dict_set (KStr (handler_exception h)) response responses)
  end.

Definition register_errors : M world dict :=
  exec hs <- gets (fun w => Ok (handlers w));
  register_errors_loop 0 hs [].

(** [basepath[:-1]] when the base path is longer than one character and
    ends with a slash *)
Fixpoint drop_last_slash (s : string) : string :=
  match s with
  | EmptyString => EmptyString
  | String c EmptyString => if Ascii.eqb c "/" then EmptyString else s
  | String c rest => String c (drop_last_slash rest)
  end.

Definition basepath_of (p : string) : string :=
  if (1 <? String.length p)%nat then drop_last_slash p else p.

Definition infos : dict :=
  let infos := [(KStr "title", _v (title api)); (KStr "version", _v (version api))] in
  let infos :=
    if truthy (description api)
    then dict_set (KStr "description") (_v (description api)) infos else infos in
  let infos :=
    if truthy (terms_url api)
    then dict_set (KStr "termsOfService") (_v (terms_url api)) infos else infos in
  let infos :=
    if truthy (contact api)
       && (truthy (contact_email api) || truthy (contact_url api))
    then dict_set (KStr "contact")
           (VDict [(KStr "name", _v (contact api));
                   (KStr "email", _v (contact_email api));
                   (KStr "url", _v (contact_url api))]) infos
    else infos in
  if truthy (license api) then
    let lic := [(KStr "name", _v (license api))] in
    let lic :=
      if truthy (license_url api)
      then dict_set (KStr "url") (_v (license_url api)) lic else lic in
    dict_set (KStr "license") (VDict lic) infos
  else infos.

(** The loops of [as_dict] over the URLs of a resource, the resources
    of a namespace, and the namespaces. *)
Fixpoint url_paths (ns : namespace) (addr : nat) (urls : list string)
  (paths : dict) : M world dict :=
  match urls with
  | [] => ret paths
  | url :: rest =>
      exec operations <- serialize_resource ns addr url;
      url_paths ns addr rest (dict_set (KStr (extract_path url)) operations paths)
  end.

Fixpoint resource_paths (ns : namespace)
  (resources : list (string * (nat * list string))) (paths : dict)
  : M world dict :=
  match resources with
  | [] => ret paths
  | (_, (addr, urls)) :: rest =>
      exec paths <- url_paths ns addr urls paths;
      resource_paths ns rest paths
  end.

Fixpoint namespace_paths (nss : list namespace) (paths : dict) : M world dict :=
  match nss with
  | [] => ret paths
  | ns :: rest =>
      exec paths <- resource_paths ns (ns_resources ns) paths;
      namespace_paths rest paths
  end.

(** Output the specification as a serializable dict. *)
Definition as_dict : M world value :=
  let basepath := basepath_of (base_path api) in
  exec tags <- lift extract_tags;
  exec responses <- register_errors;
  exec paths <- namespace_paths (namespaces api) [];
  exec definitions <-
    gets (fun w => serialize_definitions (_registered_models w));
  exec host <- lift get_host;
  let specs :=
    [(KStr "swagger", VStr "2.0");
     (KStr "basePath", VStr basepath);
     (KStr "paths", VDict (not_none_sorted paths));
     (KStr "info", VDict infos);
     (KStr "produces", VList (representations api));
     (KStr "consumes", VList [VStr "application/json"]);
     (KStr "securityDefinitions", py_or (authorizations api) VNone);
     (KStr "security", py_or (security_requirements (security api)) VNone);
     (KStr "tags", VList tags);
     (KStr "definitions", py_or (VDict definitions) VNone);
     (KStr "responses", py_or (VDict responses) VNone);
     (KStr "host", host)] in
  ret (VDict (not_none specs)).
End Swagger.

(** * Notions of the properties *)





Definition not_cookie (arg : argument) : bool :=
  negb (eq_str (arg_location arg) "cookie").

(** The parameter derived from one argument, under the name of the
    argument; its location has to be hashable to enter the set of
    locations. *)
Definition derive_param (arg : argument) : result (string * dict) :=
  do param <- arg_to_param arg;
  do _ <- locations_add param [];
  Ok (arg_name arg, param).

Fixpoint derive_params (args : list argument) : result (list (string * dict)) :=
  match args with
  | [] => Ok []
  | arg :: args' =>
      do p <- derive_param arg;
      do ps <- derive_params args';
      Ok (p :: ps)
  end.



Definition params_of (ps : list (string * dict)) (params : dict) : dict :=
  fold_left (fun acc p => dict_set (KStr (fst p)) (VDict (snd p)) acc) ps params.

(** [m] keeps the invariant [I] of the state, whether it returns or
    raises, and raises only exceptions in [E]. *)
Definition triple {S A} (I : S -> Prop) (E : error -> Prop) (m : M S A) : Prop :=
  forall s, I s -> I (fst (m s)) /\ forall e, snd (m s) = Err e -> E e.

(** The model that a schema declaration refers to: a name, a model, or
    a sequence thereof. *)
Fixpoint reference (model : value) : option string :=
  match model with
  | VStr n => Some n
  | VModel n _ _ => Some n
  | VList (x :: _) => reference x
  | _ => None
  end.

(** The only [ValueError] for a name is for a name that is not
    registered on the API. *)
Definition unregistered_only (models : gmap string spec) (e : error) : Prop :=
  forall n, e = ValueError (ModelNotRegistered (VStr n)) -> models !! n = None.

(** The models that a field refers to. *)
Fixpoint field_refs (f : field) : list value :=
  match f with
  | fields.Polymorph mapping => map snd mapping
  | fields.Nested nested => [nested]
  | fields.List container => field_refs container
  | fields.Raw _ => []
  end.

Definition fields_refs (fs : list (string * field)) : list value :=
  flat_map (fun nf => field_refs (snd nf)) fs.

(** The references that [register_model] follows from an entry of
    [api.models]: the parent when it is true (a parent model without
    fields is an empty mapping, and false), then the fields. *)
Definition spec_refs (specs : spec) : list value :=
  match specs with
  | SModel m =>
      (if truthy (__parent__ m) then [__parent__ m] else [])
      ++ fields_refs (items m)
  | SObject _ => []
  end.

(** The references of an entry as declared: its parent when it has one,
    then the fields. *)
Definition declared_refs (specs : spec) : list value :=
  match specs with
  | SModel m =>
      (if is_none (__parent__ m) then [] else [__parent__ m])
      ++ fields_refs (items m)
  | SObject _ => []
  end.

Section Graph.
Variable models : gmap string spec.
Variable refs_of : spec -> list value.

(** [n] refers to [n']. *)
Definition edge (n n' : string) : Prop :=
  exists specs r,
    models !! n = Some specs /\ In r (refs_of specs) /\ name_of r = VStr n'.

(** [n] is registered on the API and each of its references is a name
    or a model. *)
Definition resolved (n : string) : Prop :=
  exists specs,
    models !! n = Some specs
    /\ forall r, In r (refs_of specs) -> exists n', name_of r = VStr n'.

(** [register_model] on [root] returns and registers exactly the models
    that [root] reaches, when the graph that [root] reaches resolves on
    the API and is acyclic: some depth decreases along each of its
    references. *)
Definition registers_graph (root : string) : Prop :=
  (forall n, rtc edge root n -> resolved n) ->
  (exists depth : string -> nat,
      forall n n', rtc edge root n -> edge n n' -> depth n' < depth n) ->
  exists fuel, forall reg, exists reg',
    register_model models fuel (VStr root) reg = (reg', Ok (ref root))
    /\ (forall n, rtc edge root n -> reg' !! n = models !! n)
    /\ (forall n, ~ rtc edge root n -> reg' !! n = reg !! n).
End Graph.

Section RegisterNotions.
Variable models : gmap string spec.

Definition register_ref (rec : value -> M registry value) (v : value)
  : M registry unit :=
  exec _ <- rec v; ret tt.

(** [reg'] is [reg] with the names in [R] registered. *)
Definition registers (R : string -> Prop) (reg reg' : registry) : Prop :=
  (forall k, R k -> reg' !! k = models !! k)
  /\ (forall k, reg' !! k = reg !! k \/ (R k /\ reg' !! k = models !! k)).

Abbreviation reaches := (rtc (edge models spec_refs)).

(** The names reached from a list of references. *)
Definition reached_from (refs : list value) (k : string) : Prop :=
  exists r n, In r refs /\ name_of r = VStr n /\ reaches n k.

(** [rec] registers the graph of the reference [r]. *)
Definition registers_ref (rec : value -> M registry value) (r : value) : Prop :=
  exists n, name_of r = VStr n
    /\ forall reg, exists reg' v,
         rec r reg = (reg', Ok v) /\ registers (reaches n) reg reg'.

End RegisterNotions.

Definition any_error (e : error) : Prop := True.

(** Every entry of the registry is the entry of [api.models] of the same
    name. *)
Definition registry_sound (api : Api) (w : world) : Prop :=
  forall n specs,
    _registered_models w !! n = Some specs -> models api !! n = Some specs.

(** The calls on a [Swagger] instance that write to its registry, each
    with the recursion depth that the interpreter allows it. *)
Inductive call : Type :=
| CallRegisterModel (fuel : nat) (model : value)
| CallSerializeSchema (fuel : nat) (model : value)
| CallAsDict (fuel : nat).

(** The state that a call leaves, whether it returns or raises. *)
Definition after_call (app : App) (api : Api) (w : world) (c : call) : world :=
  match c with
  | CallRegisterModel fuel model =>
      fst (with_registry (register_model (models api) fuel model) w)
  | CallSerializeSchema fuel model =>
      fst (with_registry (serialize_schema (models api) fuel model) w)
  | CallAsDict fuel => fst (as_dict app api fuel w)
  end.

Definition after_calls (app : App) (api : Api) (w : world) (cs : list call) : world :=
  fold_left (after_call app api) cs w.

(** [Swagger(api)]: a serializer with an empty registry. *)
Definition new_swagger (cs : list resource) (hs : list handler) : world :=
  {| classes := cs; handlers := hs; _registered_models := ∅ |}.

(** [d] declares no response code and no model. *)
Definition undeclared (d : dict) : Prop :=
  (dict_get (KStr "responses") d = None
   \/ dict_get (KStr "responses") d = Some (VDict []))
  /\ dict_get (KStr "model") d = None.

(** The handler [h] documents a response for the exception [name]. *)
Definition documents (name : string) (h : handler) : bool :=
  match handler_code h with
  | Ok (Some code) => key_truthy code && String.eqb (handler_exception h) name
  | Ok None => false
  | Err _ => true
  end.

(** No exception that the docstring of [d] raises is documented by a
    handler of [hs]. *)
Definition no_cross_reference (hs : list handler) (d : dict) : Prop :=
  dict_get (KStr "docstring") d = None
  \/ exists ds raised,
       dict_get (KStr "docstring") d = Some (VDict ds)
       /\ dict_get (KStr "raises") ds = Some (VDict raised)
       /\ forall name h, In name (keys raised) -> In h hs ->
                         documents (py_str (key_value name)) h = false.





Section ParamSources.
Variable api : Api.
Variable fuel : nat.


End ParamSources.

Section Frame.
Variable addr : nat.
Variable w0 : world.
Variable r0 : resource.

(** Nothing but the [__apidoc__] of the class at [addr] differs from
    [w0], where the class is [r0]. *)
Definition frame (w : world) : Prop :=
  handlers w = handlers w0
  /\ (forall a, a <> addr -> classes w !! a = classes w0 !! a)
  /\ exists r, classes w !! addr = Some r
               /\ res_name r = res_name r0
               /\ res_methods r = res_methods r0
               /\ res_attrs r = res_attrs r0.

(** Moreover the [__apidoc__] of the class is the mapping [doc]. *)
Definition stored (doc : dict) (w : world) : Prop :=
  frame w
  /\ exists r, classes w !! addr = Some r /\ res_apidoc r = Some (VDict doc).

(** The classes and the handlers are those of [w]. *)
Definition same_objects (w w' : world) : Prop :=
  classes w' = classes w /\ handlers w' = handlers w.

End Frame.


Definition top_level_keys : list key :=
  [KStr "swagger"; KStr "basePath"; KStr "paths"; KStr "info";
   KStr "produces"; KStr "consumes"; KStr "securityDefinitions";
   KStr "security"; KStr "tags"; KStr "definitions"; KStr "responses";
   KStr "host"].

(** The keys that [as_dict] emits only with a value that is true. *)
Definition optional_keys : list key :=
  [KStr "securityDefinitions"; KStr "security"; KStr "definitions";
   KStr "responses"; KStr "host"].

(** The keys that [as_dict] always emits. *)
Definition required_keys : list key :=
  [KStr "swagger"; KStr "basePath"; KStr "paths"; KStr "info";
   KStr "produces"; KStr "consumes"; KStr "tags"].

(** [None], an empty mapping or an empty list. *)
Definition is_empty (v : value) : bool :=
  match v with
  | VNone | VList [] | VDict [] => true
  | _ => false
  end.

(** The claim C1: the specification holds the top-level keys only, and
    none with a value that is [None] or empty. *)
Definition drops_empty (app : App) (api : Api) (fuel : nat) (w : world) : Prop :=
  forall d,
    snd (as_dict app api fuel w) = Ok (VDict d) ->
    forall k v, dict_get k d = Some v -> In k top_level_keys /\ is_empty v = false.

(** * Examples *)

(** An application with some converters of a URL map. *)
Definition witness_app : App :=
  {| converters := ["default"; "path"; "uuid"]; config := [] |}.

(** An optional argument of a parser. *)
Definition witness_arg (name location : string) (type : value) : argument :=
  {| arg_name := name; arg_location := VStr location; arg_type := type;
     arg_required := VBool false; arg_help := VNone; arg_default := VNone;
     arg_action := VStr "store"; arg_choices := VList [] |}.

(** A model with its fields and its parent. *)
Definition witness_model (n : string) (parent : value)
  (fs : list (string * field)) : Model :=
  {| name := n; __parent__ := parent; items := fs;
     __schema__ := VDict [(KStr "properties", VDict [])] |}.

Definition witness_models : gmap string spec :=
  <["Todo" := SModel (witness_model "Todo" VNone
                        [("task", fields.Raw (VDict [(KStr "type", VStr "string")]))])]>
    ∅.

(** A child model whose parent has no field. *)
Definition empty_parent_models : gmap string spec :=
  <["Child" := SModel (witness_model "Child" (VModel "Base" 0 (VDict []))
                         [("id", fields.Raw (VDict [(KStr "type", VStr "integer")]))])]>
    (<["Base" := SModel (witness_model "Base" VNone [])]> ∅).

(** A child model with a parent and a list of nested tags. *)
Definition inherited_models : gmap string spec :=
  <["Child" := SModel (witness_model "Child" (VModel "Base" 1 (VDict []))
                         [("tags", fields.List (fields.Nested (VStr "Tag")))])]>
    (<["Base" := SModel (witness_model "Base" VNone
                           [("id", fields.Raw (VDict [(KStr "type", VStr "integer")]))])]>
       (<["Tag" := SModel (witness_model "Tag" VNone
                             [("label", fields.Raw (VDict [(KStr "type", VStr "string")]))])]>
          ∅)).

Definition inherited_depth (n : string) : nat :=
  if decide (n = "Child") then 1 else 0.

(** A todo API: one model, one documented resource under one namespace. *)
Definition todo_resource : resource :=
  {| res_name := "Todo";
     res_apidoc :=
       Some (VDict [(KStr "params",
                     VDict [(KStr "id",
                             VDict [(KStr "description", VStr "The todo id")])]);
                    (KStr "body", VModel "Todo" 1 (VDict []))]);
     res_methods := VList [VStr "GET"];
     res_attrs :=
       [("get",
         {| impl_apidoc := None;
            impl_doc := {| raw := VStr "Fetch a todo. By id";
                           summary := VStr "Fetch a todo";
                           details := VStr "By id";
                           raises := [] |} |})] |}.

Definition todo_namespace : namespace :=
  {| ns_name := "todos";
     ns_description := VStr "Todo operations";
     ns_resources := [("todo", (0, ["/todos/<int:id>"]))] |}.

Definition todo_api (nss : list namespace) : Api :=
  {| base_path := "/api/";
     title := VStr "Todo API";
     version := VStr "1.0";
     description := VNone;
     terms_url := VNone;
     contact := VNone;
     contact_email := VNone;
     contact_url := VNone;
     license := VNone;
     license_url := VNone;
     tags := [];
     namespaces := nss;
     representations := [VStr "application/json"];
     authorizations := VNone;
     security := VNone;
     models := witness_models;
     blueprint := None;
     default_id := fun name method =>
                     VStr (method +:+ "_" +:+ py_str name) |}.

Definition todo_world : world := new_swagger [todo_resource] [].

Definition todo_specs : value :=
  Eval vm_compute in
    match snd (as_dict witness_app (todo_api [todo_namespace]) 3 todo_world) with
    | Ok specs => specs
    | Err _ => VNone
    end.





Definition todo_method_doc : dict :=
  [(KStr "docstring",
    parse_docstring {| raw := VStr "Fetch a todo. By id";
                       summary := VStr "Fetch a todo";
                       details := VStr "By id";
                       raises := [("NotFound", "No such todo")] |})].

(** * Further notions *)

(** No character of the string is [<] or [>]. *)
Fixpoint no_angle (s : string) : bool :=
  match s with
  | EmptyString => true
  | String c rest => negb (is_angle c) && no_angle rest
  end.

(** [m] writes entries of [models] to the registry: the same entries
    whatever the registry holds, over those that it holds, and with a
    result that does not depend on it. *)
Definition writes {A} (models : gmap string spec) (m : M registry A) : Prop :=
  exists (W : registry) (r : result A),
    W ⊆ models /\ forall reg, m reg = (W ∪ reg, r).

(** [n] is on a cycle of references. *)
Definition cyclic (models : gmap string spec) (n : string) : Prop :=
  exists n', edge models spec_refs n n' /\ rtc (edge models spec_refs) n' n.

(** The registry holds entries of [api.models], those of [reg0] among
    them. *)
Definition extends (api : Api) (reg0 : registry) (w : world) : Prop :=
  registry_sound api w /\ reg0 ⊆ _registered_models w.

(** A tree model, whose children are trees. *)
Definition tree_models : gmap string spec :=
  <["Tree" := SModel (witness_model "Tree" VNone
                        [("children", fields.List (fields.Nested (VStr "Tree")))])]>
    ∅.

(** Every value that [m] returns satisfies [Q]. *)
Definition returns {S A} (m : M S A) (Q : A -> Prop) : Prop :=
  forall s s' a, m s = (s', Ok a) -> Q a.

(** A response with a description, or a reference to a response. *)
Definition described (response : value) : bool :=
  match response with
  | VDict r => dict_has (KStr "description") r || dict_has (KStr "$ref") r
  | _ => false
  end.

Definition all_described (responses : dict) : Prop :=
  Forall (fun kv => described (snd kv) = true) responses.



(** A parameter with a name, a location, and a type or a schema. *)
Definition complete_param (p : value) : bool :=
  match p with
  | VDict d =>
      dict_has (KStr "name") d && dict_has (KStr "in") d
      && (dict_has (KStr "type") d || dict_has (KStr "schema") d)
  | _ => false
  end.

(** A documentation with a parameter of the resource, one of the method,
    and a fields mask. *)
Definition search_doc : dict :=
  [(KStr "params", VDict [(KStr "id", VDict [(KStr "type", VType TInt)])]);
   (KStr "__mask__", VStr "{id,task}");
   (KStr "get",
    VDict [(KStr "params",
            VDict [(KStr "tags",
                    VDict [(KStr "type", VList [VType TStr]);
                           (KStr "in", VStr "query")]);
                   (KStr "q", VDict [])])])].

Definition mask_app : App :=
  {| converters := [];
     config := [(KStr "RESTPLUS_MASK_SWAGGER", VBool true);
                (KStr "RESTPLUS_MASK_HEADER", VStr "X-Fields")] |}.

Definition search_params : list value :=
  Eval vm_compute in
    match parameters_for mask_app search_doc "get" with
    | Ok params => params
    | Err _ => []
    end.

(** A tag of the list is named [n]. *)
Definition named (n : value) (tags : list dict) : Prop :=
  exists i tag, tags !! i = Some tag /\ dict_get (KStr "name") tag = Some n.

(** [by_name] gives, for each name, the position of a tag of that
    name. *)
Definition indexed (tags : list dict) (by_name : list (key * nat)) : Prop :=
  forall k i, dict_get k by_name = Some i -> 
    exists tag, tags !! i = Some tag
                /\ dict_get (KStr "name") tag = Some (key_value k).

(** An API with a declared tag and two namespaces. *)
Definition tagged_api : Api :=
  {| base_path := "/";
     title := VStr "Todo API";
     version := VStr "1.0";
     description := VNone;
     terms_url := VNone;
     contact := VNone;
     contact_email := VNone;
     contact_url := VNone;
     license := VNone;
     license_url := VNone;
     tags := [VList [VStr "todos"; VStr "Declared"]];
     namespaces :=
       [todo_namespace;
        {| ns_name := "users"; ns_description := VNone; ns_resources := [] |}];
     representations := [];
     authorizations := VNone;
     security := VNone;
     models := witness_models;
     blueprint := None;
     default_id := fun name method => VStr method |}.

Definition tagged_tags : list value :=
  Eval vm_compute in
    match extract_tags tagged_api with
    | Ok tags => tags
    | Err _ => []
    end.

(** An operation with the tag [name], and no other. *)
Definition tagged (name : string) (operation : value) : Prop :=
  exists o, operation = VDict o
            /\ dict_get (KStr "tags") o = Some (VList [VStr name]).

Definition todo_operations : dict :=
  Eval vm_compute in
    match snd (serialize_resource witness_app (todo_api [todo_namespace]) 3
                 todo_namespace 0 "/todos/<int:id>" todo_world) with
    | Ok (VDict operations) => operations
    | _ => []
    end.

Definition todo_served : world :=
  Eval vm_compute in
    fst (serialize_resource witness_app (todo_api [todo_namespace]) 3
           todo_namespace 0 "/todos/<int:id>" todo_world).

Definition todo_served_resource : resource :=
  Eval vm_compute in
    match classes todo_served !! 0%nat with
    | Some r => r
    | None => todo_resource
    end.

(** An error handler with a documented header and a documented response. *)
Definition not_found_handler : handler :=
  {| handler_exception := "NotFound";
     handler_apidoc :=
       Some (VDict [(KStr "params",
                     VDict [(KStr "X-Reason",
                             VDict [(KStr "in", VStr "header")])]);
                    (KStr "responses",
                     VDict [(KInt 404, VList [VStr "Not found"; VStr "Todo"])])]);
     handler_doc := {| raw := VStr "No such todo"; summary := VStr "No such todo";
                       details := VNone; raises := [] |} |}.

Definition error_world : world := new_swagger [] [not_found_handler].

Definition error_responses : dict :=
  Eval vm_compute in
    match snd (register_errors (todo_api []) 3 error_world) with
    | Ok responses => responses
    | Err _ => []
    end.

(** The documentation of a method, as [extract_resource_doc] leaves it:
    [False] for a hidden method, or a mapping with the parsed docstring
    and the parameters. *)
Definition method_entry (doc : dict) (method : string) : Prop :=
  exists md,
    dict_get (KStr method) doc = Some md
    /\ (md = VBool false
        \/ exists d, md = VDict d
                     /\ dict_has (KStr "docstring") d = true
                     /\ dict_has (KStr "params") d = true).

Definition todo_resource_doc : dict :=
  Eval vm_compute in
    match snd (extract_resource_doc witness_app (todo_api [todo_namespace]) 3 0
                 "/todos/<int:id>" todo_world) with
    | Ok (VDict doc) => doc
    | _ => []
    end.

(** [k] is the Swagger path of a URL of a resource of a namespace of the
    API. *)
Definition served (api : Api) (k : key) : Prop :=
  exists ns endpoint addr urls url,
    In ns (namespaces api)
    /\ In (endpoint, (addr, urls)) (ns_resources ns)
    /\ In url urls
    /\ k = KStr (extract_path url).

Definition todo_paths : dict :=
  Eval vm_compute in
    match todo_specs with
    | VDict specs =>
        match dict_get (KStr "paths") specs with
        | Some (VDict paths) => paths
        | _ => []
        end
    | _ => []
    end.

(** The locations of Swagger parameters that a parser can give. *)
Definition parser_locations : list string :=
  ["query"; "formData"; "header"; "body"].

(** A parameter located where a parser can locate one. *)
Definition parser_located (p : value) : Prop :=
  exists d l,
    p = VDict d /\ dict_get (KStr "in") d = Some (VStr l)
    /\ In l parser_locations.

(** A parser with arguments from the query string, an uploaded file, a
    header, a cookie and a location that is no key of [LOCATIONS]. *)
Definition upload_args : list argument :=
  [witness_arg "q" "args" (VType TStr);
   witness_arg "picture" "files" (VObject None None);
   witness_arg "X-Token" "headers" (VType TStr);
   witness_arg "session" "cookie" (VType TStr);
   witness_arg "page" "view_args" (VType TInt);
   witness_arg "price" "form"
     (VObject None (Some (VDict [(KStr "type", VStr "number")])))].

Definition upload_params : dict :=
  Eval vm_compute in
    match parser_to_params upload_args with
    | Ok params => params
    | Err _ => []
    end.

(** The documented parameters of an error handler. *)
Definition handler_params : dict :=
  [(KStr "X-Reason", VDict [(KStr "in", VStr "header")]);
   (KStr "id", VDict [(KStr "in", VStr "path"); (KStr "type", VType TInt)]);
   (KStr "X-Retry", VDict [(KStr "in", VStr "header"); (KStr "type", VType TInt)])].

Definition handler_headers : dict :=
  Eval vm_compute in
    match snd (headers_of handler_params) with
    | Ok headers => headers
    | Err _ => []
    end.

(** An operation with responses, and with parameters when it has the
    key: the responses are not empty, nor are the parameters, and each
    parameter is complete. *)
Definition valid_operation (operation : value) : Prop :=
  exists o,
    operation = VDict o
    /\ (exists responses,
          dict_get (KStr "responses") o = Some (VDict responses)
          /\ responses <> [])
    /\ forall ps,
         dict_get (KStr "parameters") o = Some ps ->
         exists params,
           ps = VList params /\ params <> []
           /\ forall p, In p params -> complete_param p = true.

Definition todo_operation : value :=
  Eval vm_compute in
    match snd (serialize_operation witness_app (todo_api [todo_namespace]) 3
                 todo_resource_doc "get" todo_served) with
    | Ok operation => operation
    | Err _ => VNone
    end.

(** * Properties *)

(** ** Association lists *)

Lemma dict_get_set_eq {A} (k : key) (v : A) (d : list (key * A)) :
  dict_get k (dict_set k v d) = Some v.
Proof.
  induction d as [|[k' v'] d IH]; simpl.
  - destruct (decide (k = k)); congruence.
  - destruct (decide (k = k')) as [->|Hne]; simpl.
    + destruct (decide (k' = k')); congruence.
    + destruct (decide (k = k')); [congruence | exact IH].
Qed.

Lemma dict_get_set_ne {A} (k k' : key) (v : A) (d : list (key * A)) :
  k <> k' -> dict_get k' (dict_set k v d) = dict_get k' d.
Proof.
  intros Hne. induction d as [|[k0 v0] d IH]; simpl.
  - destruct (decide (k' = k)); congruence.
  - destruct (decide (k = k0)) as [->|Hk]; simpl.
    + destruct (decide (k' = k0)); congruence.
    + destruct (decide (k' = k0)); [reflexivity | exact IH].
Qed.

Lemma dict_get_set {A} (k k' : key) (v : A) (d : list (key * A)) :
  dict_get k' (dict_set k v d) = if decide (k = k') then Some v else dict_get k' d.
Proof.
  destruct (decide (k = k')) as [->|Hne].
  - apply dict_get_set_eq.
  - now apply dict_get_set_ne.
Qed.


Lemma dict_get_In {A} (k : key) (v : A) (d : list (key * A)) :
  dict_get k d = Some v -> In (k, v) d.
Proof.
  induction d as [|[k' v'] d IH]; simpl; [discriminate|].
  destruct (decide (k = k')) as [->|Hne].
  - intros [= ->]. now left.
  - intros H. right. now apply IH.
Qed.


Lemma keys_dict_set {A} (k k' : key) (v : A) (d : list (key * A)) :
  In k' (keys (dict_set k v d)) <-> k' = k \/ In k' (keys d).
Proof.
  induction d as [|[k0 v0] d IH]; simpl.
  - intuition congruence.
  - destruct (decide (k = k0)) as [->|Hne]; simpl.
    + intuition congruence.
    + rewrite IH. intuition congruence.
Qed.

(** ** Results *)

Lemma bind_Ok {A B} (r : result A) (f : A -> result B) (b : B) :
  bind r f = Ok b -> exists a, r = Ok a /\ f a = Ok b.
Proof. destruct r as [a|e]; simpl; [eauto | discriminate]. Qed.

Lemma bind_Err {A B} (r : result A) (f : A -> result B) (e : error) :
  bind r f = Err e -> r = Err e \/ exists a, r = Ok a /\ f a = Err e.
Proof. destruct r as [a|e']; simpl; [eauto | intros [= ->]; now left]. Qed.

(** ** Path parameters *)






(** ** Request parsers *)

Lemma parser_to_params_loop_skips_cookies args :
  forall params locations,
    parser_to_params_loop args params locations
    = parser_to_params_loop (List.filter not_cookie args) params locations.
Proof.
  induction args as [|arg args IH]; intros params locations; [reflexivity|].
  simpl. unfold not_cookie at 1.
  destruct (eq_str (arg_location arg) "cookie") eqn:Hc; simpl.
  - apply IH.
  - rewrite Hc. destruct (arg_to_param arg) as [param|e]; simpl; [|reflexivity].
    destruct (locations_add param locations) as [locs|e]; simpl; [|reflexivity].
    apply IH.
Qed.






Lemma keys_params_of ps :
  forall params k,
    In k (keys (params_of ps params)) ->
    In k (keys params) \/ exists p, In p ps /\ k = KStr (fst p).
Proof.
  induction ps as [|p ps IH]; intros params k Hin; simpl in Hin; [now left|].
  apply IH in Hin as [Hin|(q & Hq & ->)].
  - apply keys_dict_set in Hin as [->|Hin]; [right | now left].
    exists p. split; [now left | reflexivity].
  - right. exists q. split; [now right | reflexivity].
Qed.

Lemma derive_params_names args :
  forall ps p,
    derive_params args = Ok ps -> In p ps ->
    exists arg, In arg args /\ arg_name arg = fst p.
Proof.
  induction args as [|arg args IH]; intros ps p Hd Hin; simpl in Hd.
  - injection Hd as <-. destruct Hin.
  - apply bind_Ok in Hd as (q & Hq & Hd).
    apply bind_Ok in Hd as (ps' & Hps & Hd). injection Hd as <-.
    destruct Hin as [<-|Hin].
    + exists arg. split; [now left|].
      unfold derive_param in Hq.
      apply bind_Ok in Hq as (param & _ & Hq).
      apply bind_Ok in Hq as (l & _ & Hq). now injection Hq as <-.
    + destruct (IH ps' p Hps Hin) as (a & Ha & Hn).
      exists a. split; [now right | exact Hn].
Qed.

Lemma parser_to_params_loop_Ok args :
  forall params locations r,
    Forall (fun arg => not_cookie arg = true) args ->
    parser_to_params_loop args params locations = Ok r ->
    exists ps, derive_params args = Ok ps /\ fst r = params_of ps params.
Proof.
  induction args as [|arg args IH]; intros params locations r Hall H; simpl in H.
  - injection H as <-. exists []. split; reflexivity.
  - inversion Hall as [|? ? Hc Hall']; subst. unfold not_cookie in Hc.
    destruct (eq_str (arg_location arg) "cookie"); [discriminate|].
    destruct (arg_to_param arg) as [param|e] eqn:Hp; simpl in H; [|discriminate].
    destruct (locations_add param locations) as [locs|e] eqn:Hl; simpl in H;
      [|discriminate].
    destruct (IH _ _ _ Hall' H) as (ps & Hps & Hr).
    exists ((arg_name arg, param) :: ps). split; [|exact Hr].
    simpl. unfold derive_param. rewrite Hp. simpl.
    assert (Hl' : exists l, locations_add param [] = Ok l).
    { unfold locations_add in *. destruct (getitem "in" param); simpl in *;
        [|discriminate]. destruct (hashable a); [eauto | discriminate]. }
    destruct Hl' as (l & ->). simpl. now rewrite Hps.
Qed.

Lemma Forall_filter_not_cookie args :
  Forall (fun arg => not_cookie arg = true) (List.filter not_cookie args).
Proof.
  induction args as [|arg args IH]; simpl; [constructor|].
  destruct (not_cookie arg) eqn:Hc; [constructor; assumption | assumption].
Qed.

(** C10.  The arguments located in a cookie are omitted: the parser gives
    what it gives without them, result or error, and every entry of the
    result has the name of an argument that is not located in a cookie. *)
Theorem parser_to_params_omits_cookies (args : list argument) :
  parser_to_params args = parser_to_params (List.filter not_cookie args)
  /\ (forall params k,
        parser_to_params args = Ok params ->
        In k (keys params) ->
        exists arg, In arg args /\ KStr (arg_name arg) = k
                    /\ eq_str (arg_location arg) "cookie" = false).
Proof.
  split.
  - unfold parser_to_params. now rewrite parser_to_params_loop_skips_cookies.
  - intros params k Hok Hin. unfold parser_to_params in Hok.
    rewrite parser_to_params_loop_skips_cookies in Hok.
    destruct (parser_to_params_loop (List.filter not_cookie args) [] []) as [[ps locs]|e]
      eqn:Hloop; simpl in Hok; [|discriminate].
    destruct (has_location "body" locs && has_location "formData" locs);
      [discriminate|]. injection Hok as <-.
    destruct (parser_to_params_loop_Ok _ _ _ _ (Forall_filter_not_cookie args) Hloop)
      as (derived & Hd & Hr). simpl in Hr. subst ps.
    apply keys_params_of in Hin as [[]|(p & Hp & ->)].
    destruct (derive_params_names _ _ _ Hd Hp) as (arg & Harg & Hn).
    apply filter_In in Harg as [Harg Hc].
    exists arg. repeat split; [exact Harg | now rewrite Hn |].
    unfold not_cookie in Hc. now destruct (eq_str (arg_location arg) "cookie").
Qed.

Lemma parser_to_params_omits_cookies_witness :
  parser_to_params
    [witness_arg "session" "cookie" (VType TStr);
     witness_arg "page" "args" (VType TInt)]
  = Ok [(KStr "page", VDict [(KStr "in", VStr "query"); (KStr "type", VStr "integer")])]
  /\ exists arg,
       In arg [witness_arg "session" "cookie" (VType TStr);
               witness_arg "page" "args" (VType TInt)]
       /\ KStr (arg_name arg) = KStr "page"
       /\ eq_str (arg_location arg) "cookie" = false.
Proof.
  split; [reflexivity|].
  apply (proj2 (parser_to_params_omits_cookies
                  [witness_arg "session" "cookie" (VType TStr);
                   witness_arg "page" "args" (VType TInt)])
           [(KStr "page",
             VDict [(KStr "in", VStr "query"); (KStr "type", VStr "integer")])]
           (KStr "page")).
  - reflexivity.
  - simpl. now left.
Defined.

(** ** Stateful computations *)

Lemma triple_ret {S A} (I : S -> Prop) E (a : A) : triple I E (ret a).
Proof. intros s Hs. split; [exact Hs | discriminate]. Qed.

Lemma triple_raise {S A} (I : S -> Prop) (E : error -> Prop) e :
  E e -> triple I E (@raise S A e).
Proof. intros He s Hs. split; [exact Hs | now intros e' [= <-]]. Qed.

Lemma triple_lift {S A} (I : S -> Prop) (E : error -> Prop) (r : result A) :
  (forall e, r = Err e -> E e) -> triple I E (@lift S A r).
Proof. intros Hr s Hs. split; [exact Hs | exact Hr]. Qed.

Lemma triple_sbind {S A B} (I : S -> Prop) E (m : M S A) (f : A -> M S B) :
  triple I E m -> (forall a, triple I E (f a)) -> triple I E (sbind m f).
Proof.
  intros Hm Hf s Hs. unfold sbind.
  destruct (Hm s Hs) as [HI HE]. destruct (m s) as [s' [a|e]]; simpl in *.
  - now apply Hf.
  - split; [exact HI|]. intros e' [= <-]. now apply HE.
Qed.

Lemma sbind_ext {S A B} (m1 m2 : M S A) (f : A -> M S B) s :
  m1 s = m2 s -> sbind m1 f s = sbind m2 f s.
Proof. unfold sbind. now intros ->. Qed.

Lemma sbind_Ok {S A B} (m : M S A) (f : A -> M S B) s s' b :
  sbind m f s = (s', Ok b) ->
  exists s1 a, m s = (s1, Ok a) /\ f a s1 = (s', Ok b).
Proof.
  unfold sbind. destruct (m s) as [s1 [a|e]]; [eauto | discriminate].
Qed.

Lemma triple_for_each {S A} (I : S -> Prop) E (xs : list A) (body : A -> M S unit) :
  (forall x, triple I E (body x)) -> triple I E (for_each xs body).
Proof.
  intros Hb. induction xs as [|x xs IH]; simpl.
  - apply triple_ret.
  - apply triple_sbind; [apply Hb | intros _; exact IH].
Qed.

Lemma triple_weaken {S A} (I : S -> Prop) (E E' : error -> Prop) (m : M S A) :
  (forall e, E e -> E' e) -> triple I E m -> triple I E' m.
Proof.
  intros HE Hm s Hs. destruct (Hm s Hs) as [HI He]. split; [exact HI|].
  intros e H. apply HE, He, H.
Qed.

(** ** The registry *)

(** An induction principle for the values as [serialize_schema] descends
    into them: through the first element of a sequence. *)
Lemma value_head_ind (P : value -> Prop) :
  (forall v, is_list v = false -> P v) ->
  P (VList []) ->
  (forall x xs, P x -> P (VList (x :: xs))) ->
  forall v, P v.
Proof.
  intros Hleaf Hnil Hcons.
  fix IH 1. intros v.
  destruct v as [| | | |xs| | | | | | |]; try (apply Hleaf; reflexivity).
  destruct xs as [|x xs]; [exact Hnil | apply Hcons, IH].
Qed.

Section Registry.
Variable models : gmap string spec.

Section Invariant.
Variable I : registry -> Prop.
Hypothesis I_insert :
  forall reg n specs, models !! n = Some specs -> I reg -> I (<[n := specs]> reg).

Lemma find_model_Ok v n specs :
  find_model models v = Ok (n, specs) -> v = VStr n /\ models !! n = Some specs.
Proof.
  unfold find_model. destruct v; try discriminate.
  destruct (models !! s) eqn:Hs; [|discriminate].
  intros [= <- <-]. now split.
Qed.

Lemma find_model_Err v e :
  find_model models v = Err e -> unregistered_only models e.
Proof.
  unfold find_model, unregistered_only. destruct v; intros H k Hk;
    try (injection H as <-; discriminate).
  destruct (models !! s) eqn:Hs; [discriminate|].
  injection H as <-. injection Hk as <-. exact Hs.
Qed.

Lemma register_field_triple (rec : value -> M registry value) f :
  (forall v, triple I (unregistered_only models) (rec v)) ->
  triple I (unregistered_only models) (register_field rec f).
Proof.
  intros Hrec. induction f as [mapping|nested|container IH|schema]; simpl.
  - apply triple_for_each. intros v.
    apply triple_sbind; [apply Hrec | intros _; apply triple_ret].
  - apply triple_sbind; [apply Hrec | intros _; apply triple_ret].
  - exact IH.
  - apply triple_ret.
Qed.

Lemma register_model_with_triple (rec : value -> M registry value) model :
  (forall v, triple I (unregistered_only models) (rec v)) ->
  triple I (unregistered_only models) (register_model_with models rec model).
Proof.
  intros Hrec. unfold register_model_with.
  intros s Hs. unfold sbind at 1. unfold lift.
  destruct (find_model models (name_of model)) as [[n specs]|e] eqn:Hf.
  - apply find_model_Ok in Hf as [_ Hn]. revert s Hs.
    change (triple I (unregistered_only models)
              (sbind (fun reg => (<[n := specs]> reg, Ok tt))
                 (fun _ =>
                    sbind
                      (match specs with
                       | SModel m =>
                           sbind (if truthy (__parent__ m)
                                  then sbind (rec (__parent__ m)) (fun _ => ret tt)
                                  else ret tt)
                             (fun _ => for_each (map snd (items m))
                                         (register_field rec))
                       | SObject _ => ret tt
                       end) (fun _ => ret (ref n))))).
    apply triple_sbind.
    + intros s Hs. simpl. split; [now apply I_insert | discriminate].
    + intros _. apply triple_sbind; [|intros _; apply triple_ret].
      destruct specs as [m|schema]; [|apply triple_ret].
      apply triple_sbind.
      * destruct (truthy (__parent__ m)); [|apply triple_ret].
        apply triple_sbind; [apply Hrec | intros _; apply triple_ret].
      * intros _. apply triple_for_each. intros f.
        now apply register_field_triple.
  - simpl. split; [exact Hs|]. intros e' [= <-].
    now apply find_model_Err in Hf.
Qed.

Lemma register_model_triple fuel :
  forall model, triple I (unregistered_only models) (register_model models fuel model).
Proof.
  induction fuel as [|fuel IH]; intros model; simpl;
    apply register_model_with_triple.
  - intros v. apply triple_raise. intros n. discriminate.
  - exact IH.
Qed.

Lemma serialize_schema_triple fuel :
  forall model, triple I (unregistered_only models) (serialize_schema models fuel model).
Proof.
  intros model. induction model as [v Hv| |x xs IH] using value_head_ind.
  - destruct v; try discriminate; simpl;
      try apply register_model_triple;
      try apply triple_ret;
      try (apply triple_raise; intros k; discriminate).
    destruct t; try apply triple_ret.
    apply triple_raise; intros k; discriminate.
  - simpl. apply triple_raise. intros n. discriminate.
  - simpl. apply triple_sbind; [exact IH | intros items; apply triple_ret].
Qed.
End Invariant.

Lemma register_model_unregistered fuel model n reg :
  name_of model = VStr n -> models !! n = None ->
  register_model models fuel model reg
  = (reg, Err (ValueError (ModelNotRegistered (VStr n)))).
Proof.
  intros Hname Hn.
  destruct fuel; simpl; unfold register_model_with, sbind, lift, find_model;
    rewrite Hname, Hn; reflexivity.
Qed.

(** C3.  A model reference (a name, a model, or a sequence whose first
    element is one) whose name is not registered on the API makes
    [serialize_schema] raise the [ValueError] for that name, with the
    registry as it was; when the name is registered, no such error is
    raised for it. *)
Theorem serialize_schema_unregistered (model : value) (n : string) :
  reference model = Some n ->
  (models !! n = None ->
   forall fuel reg,
     serialize_schema models fuel model reg
     = (reg, Err (ValueError (ModelNotRegistered (VStr n)))))
  /\ (is_Some (models !! n) ->
      forall fuel reg,
        snd (serialize_schema models fuel model reg)
        <> Err (ValueError (ModelNotRegistered (VStr n)))).
Proof.
  intros Href. split.
  - intros Hn fuel. revert Href.
    induction model as [v Hv| |x xs IH] using value_head_ind; intros Href reg.
    + destruct v; try discriminate; injection Href as ->; simpl;
        now apply register_model_unregistered.
    + discriminate.
    + simpl in Href. simpl. unfold sbind. now rewrite (IH Href).
  - intros [specs Hn] fuel reg Herr.
    destruct (serialize_schema_triple (fun _ => True) (fun _ _ _ _ _ => Logic.I)
                fuel model reg Logic.I) as [_ HE].
    specialize (HE _ Herr n eq_refl). congruence.
Qed.
End Registry.

Lemma serialize_schema_unregistered_witness :
  serialize_schema witness_models 3 (VList [VStr "Missing"]) ∅
  = (∅, Err (ValueError (ModelNotRegistered (VStr "Missing"))))
  /\ snd (serialize_schema witness_models 3 (VStr "Todo") ∅)
     <> Err (ValueError (ModelNotRegistered (VStr "Todo"))).
Proof.
  split.
  - apply (proj1 (serialize_schema_unregistered witness_models
                    (VList [VStr "Missing"]) "Missing" eq_refl)).
    reflexivity.
  - apply (proj2 (serialize_schema_unregistered witness_models
                    (VStr "Todo") "Todo" eq_refl)).
    vm_compute. eauto.
Defined.

(** ** The graph of model references *)

Section RegisterGraph.
Variable models : gmap string spec.

Abbreviation reaches := (rtc (edge models spec_refs)).

Lemma register_field_refs rec f reg :
  register_field rec f reg = for_each (field_refs f) (register_ref rec) reg.
Proof.
  induction f as [mapping|nested|container IH|schema]; simpl; try reflexivity.
  - unfold register_ref, sbind, ret.
    destruct (rec nested reg) as [reg' [a|e]]; reflexivity.
  - exact IH.
Qed.

Lemma for_each_app {A} (xs ys : list A) (body : A -> M registry unit) reg :
  for_each (xs ++ ys) body reg
  = sbind (for_each xs body) (fun _ => for_each ys body) reg.
Proof.
  revert reg. induction xs as [|x xs IH]; intros reg; simpl.
  - reflexivity.
  - unfold sbind. destruct (body x reg) as [reg' [[]|e]]; [|reflexivity].
    rewrite IH. reflexivity.
Qed.

Lemma for_each_fields rec (fs : list (string * field)) reg :
  for_each (map snd fs) (register_field rec) reg
  = for_each (fields_refs fs) (register_ref rec) reg.
Proof.
  revert reg. induction fs as [|[n f] fs IH]; intros reg; simpl; [reflexivity|].
  unfold fields_refs. simpl. rewrite for_each_app. unfold sbind.
  rewrite register_field_refs.
  destruct (for_each (field_refs f) (register_ref rec) reg) as [reg' [[]|e]];
    [|reflexivity].
  apply IH.
Qed.

(** [register_model] enters the entry of the model in the registry,
    then registers its references in order. *)
Lemma register_model_with_refs rec model n specs reg :
  name_of model = VStr n -> models !! n = Some specs ->
  register_model_with models rec model reg
  = sbind (for_each (spec_refs specs) (register_ref rec))
      (fun _ => ret (ref n)) (<[n := specs]> reg).
Proof.
  intros Hname Hn. unfold register_model_with, sbind at 1 2, lift, find_model.
  rewrite Hname, Hn.
  destruct specs as [m|schema]; simpl; [|reflexivity].
  apply sbind_ext. rewrite for_each_app. unfold sbind.
  destruct (truthy (__parent__ m)); simpl.
  - unfold register_ref at 1, sbind, ret.
    destruct (rec (__parent__ m) (<[n := SModel m]> reg)) as [reg' [a|e]];
      [|reflexivity].
    now rewrite for_each_fields.
  - now rewrite for_each_fields.
Qed.

Lemma registers_refl (R : string -> Prop) reg :
  (forall k, ~ R k) -> registers models R reg reg.
Proof. intros HR. split; [intros k Hk; now destruct (HR k) | now left]. Qed.

Lemma registers_trans (R1 R2 R : string -> Prop) reg reg1 reg2 :
  registers models R1 reg reg1 -> registers models R2 reg1 reg2 ->
  (forall k, R k <-> R1 k \/ R2 k) ->
  registers models R reg reg2.
Proof.
  intros [H1 F1] [H2 F2] HR. split.
  - intros k Hk. apply HR in Hk as [Hk|Hk]; [|now apply H2].
    destruct (F2 k) as [->|[_ ->]]; [now apply H1 | reflexivity].
  - intros k. destruct (F2 k) as [->|[Hk ->]].
    + destruct (F1 k) as [->|[Hk ->]]; [now left | right].
      split; [apply HR; now left | reflexivity].
    + right. split; [apply HR; now right | reflexivity].
Qed.

Lemma registers_insert n specs reg :
  models !! n = Some specs -> registers models (eq n) reg (<[n := specs]> reg).
Proof.
  intros Hn. split.
  - intros k <-. now rewrite lookup_insert_eq.
  - intros k. destruct (decide (n = k)) as [<-|Hne].
    + right. split; [reflexivity | now rewrite lookup_insert_eq].
    + left. now apply lookup_insert_ne.
Qed.

Lemma for_each_registers rec refs :
  (forall r, In r refs -> registers_ref models rec r) ->
  forall reg, exists reg',
    for_each refs (register_ref rec) reg = (reg', Ok tt)
    /\ registers models (reached_from models refs) reg reg'.
Proof.
  induction refs as [|r refs IH]; intros Hrec reg.
  - exists reg. split; [reflexivity|]. apply registers_refl.
    intros k (r & n & [] & _).
  - destruct (Hrec r (or_introl eq_refl)) as (n & Hn & Hr).
    destruct (Hr reg) as (reg1 & v & Hrun & Hreg1).
    destruct (IH (fun r' Hin => Hrec r' (or_intror Hin)) reg1)
      as (reg2 & Hrest & Hreg2).
    exists reg2. split.
    + simpl. unfold sbind at 1. unfold register_ref at 1, sbind.
      rewrite Hrun. simpl. exact Hrest.
    + apply (registers_trans _ _ _ _ _ _ Hreg1 Hreg2).
      intros k. split.
      * intros (r' & n' & [<-|Hin] & Hn' & Hk).
        -- left. rewrite Hn in Hn'. now injection Hn' as <-.
        -- right. now exists r', n'.
      * intros [Hk|(r' & n' & Hin & Hn' & Hk)].
        -- exists r, n. repeat split; [now left | exact Hn | exact Hk].
        -- exists r', n'. repeat split; [now right | exact Hn' | exact Hk].
Qed.

Lemma reaches_unfold n specs k :
  models !! n = Some specs ->
  reaches n k <-> n = k \/ reached_from models (spec_refs specs) k.
Proof.
  intros Hn. split.
  - intros H. destruct H as [|n n' k (specs' & r & Hs & Hr & Hname) Hrest].
    + now left.
    + right. rewrite Hn in Hs. injection Hs as <-. now exists r, n'.
  - intros [<-|(r & n' & Hr & Hname & Hk)]; [apply rtc_refl|].
    eapply rtc_l; [|exact Hk]. now exists specs, r.
Qed.

Lemma register_model_with_registers rec model n :
  name_of model = VStr n ->
  resolved models spec_refs n ->
  (forall specs r, models !! n = Some specs -> In r (spec_refs specs) ->
                   registers_ref models rec r) ->
  forall reg, exists reg',
    register_model_with models rec model reg = (reg', Ok (ref n))
    /\ registers models (reaches n) reg reg'.
Proof.
  intros Hname (specs & Hn & _) Hrec reg.
  rewrite (register_model_with_refs rec model n specs reg Hname Hn).
  destruct (for_each_registers rec (spec_refs specs) (fun r => Hrec specs r Hn)
              (<[n := specs]> reg)) as (reg' & Hrun & Hreg).
  exists reg'. split.
  - unfold sbind. now rewrite Hrun.
  - apply (registers_trans _ _ _ _ _ _ (registers_insert n specs reg Hn) Hreg).
    intros k. now apply reaches_unfold.
Qed.

Lemma register_model_registers (depth : string -> nat) (root : string) :
  (forall n, reaches root n -> resolved models spec_refs n) ->
  (forall n n', reaches root n -> edge models spec_refs n n' ->
                depth n' < depth n) ->
  forall fuel model n,
    name_of model = VStr n -> reaches root n -> depth n <= fuel ->
    forall reg, exists reg',
      register_model models fuel model reg = (reg', Ok (ref n))
      /\ registers models (reaches n) reg reg'.
Proof.
  intros Hres Hdepth.
  induction fuel as [|fuel IH]; intros model n Hname Hreach Hle; simpl;
    apply (register_model_with_registers _ model n Hname (Hres n Hreach));
    intros specs r Hn Hr;
    destruct (Hres n Hreach) as (specs' & Hn' & Hnames);
    rewrite Hn in Hn'; injection Hn' as <-;
    destruct (Hnames r Hr) as (n' & Hn');
    assert (Hedge : edge models spec_refs n n') by (now exists specs, r);
    pose proof (Hdepth n n' Hreach Hedge) as Hlt.
  - lia.
  - exists n'. split; [exact Hn'|]. intros reg.
    destruct (IH r n' Hn' (rtc_r _ _ _ Hreach Hedge) ltac:(lia) reg)
      as (reg' & Hrun & Hreg).
    now exists reg', (ref n').
Qed.

(** C8 as amended.  When the graph that a model reaches through its
    non-empty parent models, its nested fields, list containers and
    polymorph mappings resolves on the API and is acyclic (some depth
    decreases along every reference), [register_model] returns and
    registers exactly the models of that graph: each of them under its
    entry of [api.models], the other entries of the registry as they
    were. *)
Theorem register_model_terminates (model : value) (root : string)
  (depth : string -> nat) :
  name_of model = VStr root ->
  (forall n, reaches root n -> resolved models spec_refs n) ->
  (forall n n', reaches root n -> edge models spec_refs n n' ->
                depth n' < depth n) ->
  forall reg, exists reg',
    register_model models (depth root) model reg = (reg', Ok (ref root))
    /\ (forall n, reaches root n -> reg' !! n = models !! n)
    /\ (forall n, ~ reaches root n -> reg' !! n = reg !! n).
Proof.
  intros Hname Hres Hdepth reg.
  destruct (register_model_registers depth root Hres Hdepth (depth root)
              model root Hname (rtc_refl _ _) (le_n _) reg)
    as (reg' & Hrun & Hreg & Hframe).
  exists reg'. repeat split; [exact Hrun | exact Hreg|].
  intros n Hn. destruct (Hframe n) as [H|[H _]]; [exact H | contradiction].
Qed.
End RegisterGraph.

Lemma empty_parent_edge n n' :
  edge empty_parent_models declared_refs n n' -> n = "Child" /\ n' = "Base".
Proof.
  intros (specs & r & Hs & Hr & Hn). unfold empty_parent_models in Hs.
  apply lookup_insert_Some in Hs as [[<- <-]|[_ Hs]].
  - simpl in Hr. destruct Hr as [<-|[]]. simpl in Hn. now injection Hn as <-.
  - apply lookup_insert_Some in Hs as [[<- <-]|[_ Hs]].
    + destruct Hr.
    + rewrite lookup_empty in Hs. discriminate.
Qed.

Lemma empty_parent_reached n :
  rtc (edge empty_parent_models declared_refs) "Child" n ->
  n = "Child" \/ n = "Base".
Proof.
  intros H. apply rtc_inv_r in H as [<-|(k & _ & He)]; [now left|].
  apply empty_parent_edge in He as [_ ->]. now right.
Qed.

Lemma empty_parent_registered fuel :
  register_model empty_parent_models fuel (VStr "Child") ∅
  = (<["Child" := SModel (witness_model "Child" (VModel "Base" 0 (VDict []))
                            [("id", fields.Raw (VDict [(KStr "type", VStr "integer")]))])]>
       ∅,
     Ok (ref "Child")).
Proof.
  destruct fuel; simpl;
    now rewrite (register_model_with_refs empty_parent_models _ (VStr "Child")
                   "Child" _ ∅ eq_refl eq_refl).
Qed.

(** C8 fails as stated: a parent model without fields is declared,
    reached through the parent, and not registered. *)
Lemma register_model_skips_empty_parent :
  ~ registers_graph empty_parent_models declared_refs "Child".
Proof.
  intros Hclaim.
  destruct Hclaim as (fuel & Hfuel).
  - intros n Hn. apply empty_parent_reached in Hn as [->| ->].
    + eexists. split; [reflexivity|].
      intros r [<-|[]]. now exists "Base".
    + eexists. split; [reflexivity|]. intros r [].
  - exists (fun n => if decide (n = "Child") then 1 else 0).
    intros n n' _ He. apply empty_parent_edge in He as [-> ->].
    simpl. lia.
  - destruct (Hfuel ∅) as (reg' & Hrun & Hreg & _).
    rewrite empty_parent_registered in Hrun. injection Hrun as <-.
    specialize (Hreg "Base").
    assert (Hreach : rtc (edge empty_parent_models declared_refs) "Child" "Base").
    { apply rtc_once. eexists _, _. split; [reflexivity|].
      split; [now left | reflexivity]. }
    specialize (Hreg Hreach). vm_compute in Hreg. discriminate.
Qed.

Lemma inherited_edge n n' :
  edge inherited_models spec_refs n n' ->
  n = "Child" /\ (n' = "Base" \/ n' = "Tag").
Proof.
  intros (specs & r & Hs & Hr & Hn). unfold inherited_models in Hs.
  apply lookup_insert_Some in Hs as [[<- <-]|[_ Hs]].
  - simpl in Hr. split; [reflexivity|].
    destruct Hr as [<-|[<-|[]]]; simpl in Hn; injection Hn as <-; auto.
  - apply lookup_insert_Some in Hs as [[<- <-]|[_ Hs]]; [destruct Hr|].
    apply lookup_insert_Some in Hs as [[<- <-]|[_ Hs]]; [destruct Hr|].
    rewrite lookup_empty in Hs. discriminate.
Qed.

Lemma register_model_terminates_witness :
  exists reg',
    register_model inherited_models (inherited_depth "Child")
      (VModel "Child" 1 (VDict [])) ∅
    = (reg', Ok (ref "Child"))
    /\ (forall n, rtc (edge inherited_models spec_refs) "Child" n ->
                  reg' !! n = inherited_models !! n)
    /\ (forall n, ~ rtc (edge inherited_models spec_refs) "Child" n ->
                  reg' !! n = (∅ : gmap string spec) !! n).
Proof.
  apply (register_model_terminates inherited_models (VModel "Child" 1 (VDict []))
           "Child" inherited_depth eq_refl).
  - intros n Hn. apply rtc_inv_r in Hn as [<-|(k & _ & He)].
    + eexists. split; [reflexivity|].
      intros r [<-|[<-|[]]]; [now exists "Base" | now exists "Tag"].
    + apply inherited_edge in He as [_ [-> | ->]];
        (eexists; split; [reflexivity | intros r []]).
  - intros n n' _ He. apply inherited_edge in He as [-> [-> | ->]];
      vm_compute; lia.
Defined.

(** ** Invariants of a serialization *)

Lemma triple_gets {S A} (I : S -> Prop) (E : error -> Prop) (f : S -> result A) :
  (forall s e, f s = Err e -> E e) -> triple I E (gets f).
Proof. intros Hf s Hs. split; [exact Hs | apply Hf]. Qed.

Ltac triple_step :=
  match goal with
  | |- triple _ _ (ret _) => apply triple_ret
  | |- triple _ _ (raise _) => apply triple_raise; exact Logic.I
  | |- triple _ _ (lift _) => apply triple_lift; intros; exact Logic.I
  | |- triple _ _ (gets _) => apply triple_gets; intros; exact Logic.I
  | |- triple _ _ (get_class _) => apply triple_gets; intros; exact Logic.I
  | |- triple _ _ (sbind _ _) => apply triple_sbind; [|intros ?]
  | H : _ |- triple _ _ _ => apply H
  | |- triple _ _ (match ?x with _ => _ end) => destruct x
  end.

Ltac triple_auto := repeat triple_step.

Section WorldInvariant.
Variable app : App.
Variable api : Api.
Variable fuel : nat.
Variable I : world -> Prop.

Hypothesis I_schema :
  forall model,
    triple I any_error (with_registry (serialize_schema (models api) fuel model)).

Lemma merge_params_triple params doc :
  triple I any_error (merge_params api fuel params doc).
Proof. unfold merge_params. triple_auto. Qed.

Lemma declared_responses_triple entries :
  forall responses,
    triple I any_error (declared_responses api fuel entries responses).
Proof.
  induction entries as [|[code response] entries IH]; intros responses; simpl.
  - apply triple_ret.
  - triple_auto.
Qed.

Lemma responses_from_triple d responses :
  triple I any_error (responses_from api fuel d responses).
Proof.
  unfold responses_from.
  triple_auto; apply declared_responses_triple.
Qed.

Lemma responses_for_triple doc method :
  triple I any_error (responses_for api fuel doc method).
Proof. unfold responses_for. triple_auto; apply responses_from_triple. Qed.

Lemma serialize_operation_triple doc method :
  triple I any_error (serialize_operation app api fuel doc method).
Proof.
  unfold serialize_operation. triple_auto. apply responses_for_triple.
Qed.

Lemma serialize_operations_triple ns doc methods :
  forall operations,
    triple I any_error (serialize_operations app api fuel ns doc methods operations).
Proof.
  induction methods as [|method methods IH]; intros operations; simpl.
  - apply triple_ret.
  - triple_auto; apply serialize_operation_triple.
Qed.

Section Class.
Variable addr : nat.

Section Shared.
Variable shared : bool.
Hypothesis I_class :
  shared = true -> forall r, triple I any_error (set_class addr r).

Lemma doc_setitem_triple k v doc :
  triple I any_error (doc_setitem addr shared k v doc).
Proof.
  unfold doc_setitem. destruct shared; [|apply triple_ret].
  triple_auto. reflexivity.
Qed.

Lemma extract_method_doc_triple r method doc :
  triple I any_error (extract_method_doc api fuel r addr shared method doc).
Proof.
  unfold extract_method_doc.
  triple_auto; try apply merge_params_triple; apply doc_setitem_triple.
Qed.

Lemma extract_methods_doc_triple r methods :
  forall doc,
    triple I any_error (extract_methods_doc api fuel r addr shared methods doc).
Proof.
  induction methods as [|method methods IH]; intros doc; simpl.
  - apply triple_ret.
  - triple_auto; apply extract_method_doc_triple.
Qed.
End Shared.

Hypothesis I_class : forall r, triple I any_error (set_class addr r).

Lemma extract_resource_doc_triple url :
  triple I any_error (extract_resource_doc app api fuel addr url).
Proof.
  unfold extract_resource_doc.
  triple_auto;
    try (apply doc_setitem_triple; intros _; exact I_class);
    try apply merge_params_triple;
    apply extract_methods_doc_triple; intros _; exact I_class.
Qed.

Lemma serialize_resource_triple ns url :
  triple I any_error (serialize_resource app api fuel ns addr url).
Proof.
  unfold serialize_resource.
  triple_auto; try apply extract_resource_doc_triple;
    apply serialize_operations_triple.
Qed.
End Class.

Hypothesis I_classes : forall addr r, triple I any_error (set_class addr r).
Hypothesis I_handlers : forall hs, triple I any_error (set_handlers hs).

Lemma register_error_triple i h :
  triple I any_error (register_error api fuel i h).
Proof.
  unfold register_error, set_handler.
  triple_auto.
Qed.

Lemma register_errors_loop_triple hs :
  forall i responses,
    triple I any_error (register_errors_loop api fuel i hs responses).
Proof.
  induction hs as [|h hs IH]; intros i responses; simpl.
  - apply triple_ret.
  - triple_auto; apply register_error_triple.
Qed.

Lemma url_paths_triple ns addr urls :
  forall paths, triple I any_error (url_paths app api fuel ns addr urls paths).
Proof.
  induction urls as [|url urls IH]; intros paths; simpl.
  - apply triple_ret.
  - triple_auto; apply serialize_resource_triple, I_classes.
Qed.

Lemma resource_paths_triple ns resources :
  forall paths, triple I any_error (resource_paths app api fuel ns resources paths).
Proof.
  induction resources as [|[endpoint [addr urls]] resources IH]; intros paths; simpl.
  - apply triple_ret.
  - triple_auto; apply url_paths_triple.
Qed.

Lemma namespace_paths_triple nss :
  forall paths, triple I any_error (namespace_paths app api fuel nss paths).
Proof.
  induction nss as [|ns nss IH]; intros paths; simpl.
  - apply triple_ret.
  - triple_auto; apply resource_paths_triple.
Qed.

Lemma as_dict_triple : triple I any_error (as_dict app api fuel).
Proof.
  unfold as_dict, register_errors.
  triple_auto; try apply register_errors_loop_triple;
    apply namespace_paths_triple.
Qed.
End WorldInvariant.

(** ** The registry holds entries of [api.models] *)

Section Sound.
Variable app : App.
Variable api : Api.

Lemma sound_insert (reg : registry) n specs :
  models api !! n = Some specs ->
  (forall k s, reg !! k = Some s -> models api !! k = Some s) ->
  forall k s, <[n := specs]> reg !! k = Some s -> models api !! k = Some s.
Proof.
  intros Hn Hreg k s Hk.
  apply lookup_insert_Some in Hk as [[<- <-]|[_ Hk]]; [exact Hn | now apply Hreg].
Qed.

Lemma with_registry_sound {A} (m : M registry A) :
  triple (fun reg => forall k s, reg !! k = Some s -> models api !! k = Some s)
    (unregistered_only (models api)) m ->
  triple (registry_sound api) any_error (with_registry m).
Proof.
  intros Hm w Hw. unfold with_registry.
  destruct (Hm (_registered_models w) Hw) as [HI _].
  destruct (m (_registered_models w)) as [reg r]. simpl in *.
  split; [exact HI | intros; exact Logic.I].
Qed.

Lemma serialize_schema_sound fuel model :
  triple (registry_sound api) any_error
    (with_registry (serialize_schema (models api) fuel model)).
Proof.
  apply with_registry_sound, serialize_schema_triple.
  intros reg n specs Hn Hreg. now apply sound_insert.
Qed.

Lemma register_model_sound fuel model :
  triple (registry_sound api) any_error
    (with_registry (register_model (models api) fuel model)).
Proof.
  apply with_registry_sound, register_model_triple.
  intros reg n specs Hn Hreg. now apply sound_insert.
Qed.

Lemma as_dict_sound fuel :
  triple (registry_sound api) any_error (as_dict app api fuel).
Proof.
  apply as_dict_triple.
  - apply serialize_schema_sound.
  - intros addr r w Hw. split; [exact Hw | intros; exact Logic.I].
  - intros hs w Hw. split; [exact Hw | intros; exact Logic.I].
Qed.

Lemma after_call_sound w c :
  registry_sound api w -> registry_sound api (after_call app api w c).
Proof.
  intros Hw. destruct c as [fuel model|fuel model|fuel]; simpl.
  - now apply register_model_sound.
  - now apply serialize_schema_sound.
  - now apply as_dict_sound.
Qed.

Lemma definitions_of_entries entries d k schema :
  definitions_of entries = Ok d -> dict_get k d = Some schema ->
  exists n specs, k = KStr n /\ In (n, specs) entries
                  /\ schema_of specs = Some schema.
Proof.
  revert d. induction entries as [|[n specs] entries IH]; intros d Hd Hk; simpl in Hd.
  - injection Hd as <-. discriminate.
  - destruct (schema_of specs) as [s|] eqn:Hs; [|discriminate].
    apply bind_Ok in Hd as (d' & Hd' & Hd). injection Hd as <-.
    simpl in Hk. destruct (decide (k = KStr n)) as [->|Hne].
    + injection Hk as <-. exists n, specs. repeat split; [now left | exact Hs].
    + destruct (IH d' Hd' Hk) as (n' & specs' & -> & Hin & Hs').
      exists n', specs'. repeat split; [now right | exact Hs'].
Qed.

(** C9.  After any sequence of [register_model], [serialize_schema] and
    [as_dict] calls on a new serializer, whether each returned or
    raised, and at whatever depth its recursion was stopped, every
    entry of the registry is the entry of [api.models] of the same
    name; and [serialize_definitions] emits, under each name, the
    schema of the object that the API has under that name. *)
Theorem registered_models_on_api (cs : list resource) (hs : list handler)
  (calls : list call) :
  let w := after_calls app api (new_swagger cs hs) calls in
  (forall n specs,
      _registered_models w !! n = Some specs -> models api !! n = Some specs)
  /\ (forall definitions k schema,
        serialize_definitions (_registered_models w) = Ok definitions ->
        dict_get k definitions = Some schema ->
        exists n specs,
          k = KStr n /\ models api !! n = Some specs
          /\ schema_of specs = Some schema).
Proof.
  intros w.
  assert (Hsound : registry_sound api w).
  { subst w. unfold after_calls.
    assert (H0 : registry_sound api (new_swagger cs hs))
      by (intros n specs H; simpl in H; rewrite lookup_empty in H; discriminate).
    revert H0. generalize (new_swagger cs hs) as w0.
    induction calls as [|c calls IH]; intros w0 H0; simpl; [exact H0|].
    apply IH. now apply after_call_sound. }
  split; [exact Hsound|].
  intros definitions k schema Hd Hk. unfold serialize_definitions in Hd.
  destruct (definitions_of_entries _ _ _ _ Hd Hk) as (n & specs & -> & Hin & Hs).
  exists n, specs. repeat split; [|exact Hs].
  apply Hsound. apply elem_of_map_to_list. now apply list_elem_of_In.
Qed.
End Sound.

(** ** The default response *)

Lemma raised_response_none name hs responses :
  (forall h, In h hs -> documents name h = false) ->
  raised_response name hs responses = Ok responses.
Proof.
  induction hs as [|h hs IH]; intros Hhs; simpl; [reflexivity|].
  pose proof (Hhs h (or_introl eq_refl)) as Hh. unfold documents in Hh.
  destruct (handler_code h) as [[code|]|e]; simpl; try discriminate.
  - rewrite Hh. apply IH. intros h' Hin. apply Hhs. now right.
  - apply IH. intros h' Hin. apply Hhs. now right.
Qed.

Lemma raised_responses_none raised hs responses :
  (forall name h, In name (keys raised) -> In h hs ->
                  documents (py_str (key_value name)) h = false) ->
  raised_responses raised hs responses = Ok responses.
Proof.
  induction raised as [|[name description] raised IH]; intros Hr; simpl;
    [reflexivity|].
  rewrite raised_response_none.
  - simpl. apply IH. intros n h Hn Hh. apply Hr; [now right | exact Hh].
  - intros h Hh. apply Hr; [now left | exact Hh].
Qed.

Lemma responses_from_none api fuel d w :
  undeclared d -> no_cross_reference (handlers w) d ->
  responses_from api fuel d [] w = (w, Ok []).
Proof.
  intros [Hresp Hmodel] Hcross. unfold responses_from.
  rewrite Hmodel.
  assert (Hfirst :
    (match dict_get (KStr "responses") d with
     | Some rs =>
         exec entries <- lift (as_dict_of rs AttributeError);
         declared_responses api fuel entries []
     | None => ret []
     end) w = (w, Ok [])).
  { destruct Hresp as [-> | ->]; reflexivity. }
  unfold sbind at 1. rewrite Hfirst.
  unfold sbind at 1. unfold ret at 1.
  destruct Hcross as [-> | (ds & raised & -> & Hraises & Hnone)]; [reflexivity|].
  unfold sbind, lift, gets, getitem. simpl. rewrite Hraises. simpl.
  now rewrite raised_responses_none.
Qed.

(** C7.  For an operation whose resource and method documentation
    declare no response code and no model, and whose raised exceptions
    are documented by no error handler, [responses_for] returns exactly
    one response: code ['200'], description ['Success']. *)
Theorem responses_for_default (api : Api) (fuel : nat) (doc md : dict)
  (method : string) (w : world) :
  dict_get (KStr method) doc = Some (VDict md) ->
  undeclared doc -> undeclared md ->
  no_cross_reference (handlers w) doc ->
  no_cross_reference (handlers w) md ->
  responses_for api fuel doc method w
  = (w, Ok [(KStr "200", VDict [(KStr "description", VStr "Success")])]).
Proof.
  intros Hmd Hdoc Hmethod Hcdoc Hcmd. unfold responses_for.
  unfold sbind at 1. unfold lift at 1, getitem. rewrite Hmd.
  unfold sbind at 1. simpl.
  unfold sbind at 1. rewrite (responses_from_none api fuel doc w Hdoc Hcdoc).
  unfold sbind at 1. rewrite (responses_from_none api fuel md w Hmethod Hcmd).
  reflexivity.
Qed.

(** ** Merged parameters *)





Lemma dict_get_Forall {A} (P : A -> Prop) (d : list (key * A)) k x :
  Forall (fun kv => P (snd kv)) d -> dict_get k d = Some x -> P x.
Proof.
  intros Hall Hk. apply dict_get_In in Hk.
  rewrite List.Forall_forall in Hall. apply (Hall (k, x) Hk).
Qed.







Section MergedParams.
Variable api : Api.
Variable fuel : nat.



End MergedParams.

(** ** What a pass writes to a resource class *)

Section ResourceDoc.
Variable app : App.
Variable api : Api.
Variable fuel : nat.
Variable addr : nat.
Variable w0 : world.
Variable r0 : resource.

Lemma with_registry_same_objects {A} (m : M registry A) w :
  triple (same_objects w) any_error (with_registry m).
Proof.
  intros w1 Hw1. unfold with_registry. destruct (m (_registered_models w1)).
  split; [exact Hw1 | intros; exact Logic.I].
Qed.


Lemma frame_same_objects w w' : same_objects w w' -> frame addr w0 r0 w -> frame addr w0 r0 w'.
Proof. intros [Hc Hh] H. unfold frame. now rewrite Hc, Hh. Qed.

Lemma stored_same_objects doc w w' :
  same_objects w w' -> stored addr w0 r0 doc w -> stored addr w0 r0 doc w'.
Proof.
  intros Hs [Hf Hd]. split; [now apply (frame_same_objects w)|].
  destruct Hs as [Hc _]. now rewrite Hc.
Qed.





Lemma frame_class w :
  frame addr w0 r0 w -> exists r, classes w !! addr = Some r.
Proof. intros (_ & _ & r & Hr & _). now exists r. Qed.




End ResourceDoc.



(** ** The keys of the specification *)

(** C1 fails as stated: the specification of an API without namespace
    and without tag has an empty list of tags and an empty mapping of
    paths. *)
Lemma as_dict_keeps_empty_tags :
  ~ drops_empty witness_app (todo_api []) 0 (new_swagger [] []).
Proof.
  intros H.
  destruct (H _ eq_refl (KStr "tags") (VList []) eq_refl) as [_ Hempty].
  discriminate.
Qed.

Lemma not_none_In k v d :
  dict_get k (not_none d) = Some v -> In (k, v) d /\ v <> VNone.
Proof.
  intros H. apply dict_get_In in H. unfold not_none in H.
  apply filter_In in H as [Hin Hv]. split; [exact Hin|].
  intros ->. discriminate.
Qed.

Lemma dict_get_not_none k v d :
  dict_get k d = Some v -> is_none v = false -> dict_get k (not_none d) = Some v.
Proof.
  intros Hk Hv. induction d as [|[k' v'] d IH]; simpl in *; [discriminate|].
  destruct (decide (k = k')) as [->|Hne].
  - injection Hk as ->. rewrite Hv. simpl.
    destruct (decide (k' = k')); congruence.
  - destruct (is_none v'); simpl; [now apply IH|].
    destruct (decide (k = k')); [congruence | now apply IH].
Qed.

Lemma py_or_None v : py_or v VNone <> VNone -> truthy (py_or v VNone) = true.
Proof. unfold py_or. now destruct (truthy v) eqn:Hv. Qed.

Lemma append_not_empty a b : b <> "" -> a +:+ b <> "".
Proof. destruct a; simpl; [tauto | discriminate]. Qed.

Lemma get_host_truthy app api host :
  get_host app api = Ok host -> host <> VNone -> truthy host = true.
Proof.
  unfold get_host. intros H Hhost.
  set (hostname := py_or (get_default (KStr "SERVER_NAME") VNone (config app)) VNone)
    in *.
  assert (Hname : hostname = host -> truthy host = true)
    by (intros <-; now apply py_or_None).
  destruct (blueprint api) as [subdomain|]; [|injection H as H; now apply Hname].
  destruct (truthy hostname && truthy subdomain);
    [|injection H as H; now apply Hname].
  apply bind_Ok in H as (sub & _ & H). apply bind_Ok in H as (h & _ & H).
  injection H as <-. simpl.
  apply negb_true_iff, String.eqb_neq. apply append_not_empty.
  discriminate.
Qed.

(** C1 as amended.  The specification that [as_dict] returns holds keys
    among [swagger], [basePath], [paths], [info], [produces], [consumes],
    [securityDefinitions], [security], [tags], [definitions],
    [responses] and [host] only, and none with the value [None];
    [securityDefinitions], [security], [definitions], [responses] and
    [host] are there only with a value that is not empty; [swagger],
    [basePath], [paths], [info], [produces], [consumes] and [tags] are
    always there. *)
Theorem as_dict_top_level (app : App) (api : Api) (fuel : nat) (w : world)
  (specs : value) :
  snd (as_dict app api fuel w) = Ok specs ->
  exists d,
    specs = VDict d
    /\ (forall k v, dict_get k d = Some v -> In k top_level_keys /\ v <> VNone)
    /\ (forall k v, In k optional_keys -> dict_get k d = Some v -> truthy v = true)
    /\ (forall k, In k required_keys -> dict_get k d <> None).
Proof.
  intros H. destruct (as_dict app api fuel w) as [w' r] eqn:Hrun.
  simpl in H. subst r. unfold as_dict in Hrun.
  apply sbind_Ok in Hrun as (w1 & declared & _ & Hrun).
  apply sbind_Ok in Hrun as (w2 & responses & _ & Hrun).
  apply sbind_Ok in Hrun as (w3 & paths & _ & Hrun).
  apply sbind_Ok in Hrun as (w4 & definitions & _ & Hrun).
  apply sbind_Ok in Hrun as (w5 & host & Hhost & Hrun).
  unfold lift in Hhost. injection Hhost as _ Hhost.
  match type of Hrun with
  | ret (VDict (not_none ?l)) _ = _ => remember l as entries eqn:Hentries
  end.
  unfold ret in Hrun. injection Hrun as _ <-.
  exists (not_none entries). split; [reflexivity|]. split; [|split].
  - intros k v Hk. apply not_none_In in Hk as [Hin Hv]. split; [|exact Hv].
    subst entries. simpl in Hin. unfold top_level_keys.
    repeat (destruct Hin as [Hin|Hin];
            [injection Hin as <- _; simpl; tauto|]).
    destruct Hin.
  - intros k v Hopt Hk. apply not_none_In in Hk as [Hin Hv].
    subst entries. simpl in Hin, Hopt.
    repeat (destruct Hin as [Hin|Hin];
            [injection Hin as <- <-;
             first [now apply py_or_None
                   | now apply (get_host_truthy app api)
                   | exfalso; intuition discriminate]|]).
    destruct Hin.
  - intros k Hreq. simpl in Hreq. subst entries.
    repeat (destruct Hreq as [<-|Hreq];
            [erewrite dict_get_not_none; [discriminate | reflexivity | reflexivity]|]).
    destruct Hreq.
Qed.

Lemma as_dict_top_level_witness :
  exists d,
    todo_specs = VDict d
    /\ (forall k v, dict_get k d = Some v -> In k top_level_keys /\ v <> VNone)
    /\ (forall k v, In k optional_keys -> dict_get k d = Some v -> truthy v = true)
    /\ (forall k, In k required_keys -> dict_get k d <> None).
Proof.
  apply (as_dict_top_level witness_app (todo_api [todo_namespace]) 3 todo_world).
  vm_compute. reflexivity.
Defined.


Lemma responses_for_default_witness :
  responses_for (todo_api [todo_namespace]) 3
    [(KStr "name", VStr "Todo"); (KStr "get", VDict todo_method_doc)] "get"
    todo_world
  = (todo_world, Ok [(KStr "200", VDict [(KStr "description", VStr "Success")])]).
Proof.
  apply (responses_for_default (todo_api [todo_namespace]) 3
           [(KStr "name", VStr "Todo"); (KStr "get", VDict todo_method_doc)]
           todo_method_doc "get" todo_world).
  - reflexivity.
  - split; [left|]; reflexivity.
  - split; [left|]; reflexivity.
  - left. reflexivity.
  - right. eexists _, _. split; [reflexivity|]. split; [reflexivity|].
    intros name h _ [].
Defined.

Lemma registered_models_on_api_witness :
  let w := after_calls witness_app (todo_api [todo_namespace])
             (new_swagger [todo_resource] [])
             [CallSerializeSchema 3 (VList [VStr "Todo"]);
              CallRegisterModel 0 (VStr "Missing");
              CallAsDict 3] in
  _registered_models w !! "Todo" = witness_models !! "Todo"
  /\ forall definitions k schema,
       serialize_definitions (_registered_models w) = Ok definitions ->
       dict_get k definitions = Some schema ->
       exists n specs,
         k = KStr n /\ witness_models !! n = Some specs
         /\ schema_of specs = Some schema.
Proof.
  intros w.
  destruct (registered_models_on_api witness_app (todo_api [todo_namespace])
              [todo_resource] []
              [CallSerializeSchema 3 (VList [VStr "Todo"]);
               CallRegisterModel 0 (VStr "Missing");
               CallAsDict 3]) as [Hsound Hdefs].
  split; [|exact Hdefs].
  apply Hsound. vm_compute. reflexivity.
Defined.

(** * Further properties *)

(** ** URL patterns *)

Lemma append_cons c (s t : string) : String c s +:+ t = String c (s +:+ t).
Proof. reflexivity. Qed.

Lemma append_nil_l (s : string) : "" +:+ s = s.
Proof. reflexivity. Qed.

Lemma append_nil_r (s : string) : s +:+ "" = s.
Proof.
  induction s as [|c s IH]; [reflexivity|]. rewrite append_cons. now f_equal.
Qed.

Lemma append_assoc (a b c : string) : (a +:+ b) +:+ c = a +:+ (b +:+ c).
Proof.
  induction a as [|x a IH]; [reflexivity|]. rewrite !append_cons. now f_equal.
Qed.

Lemma not_angle c :
  negb (is_angle c) = true -> Ascii.eqb c "<" = false /\ Ascii.eqb c ">" = false.
Proof.
  unfold is_angle. intros H. apply negb_true_iff, orb_false_iff in H. exact H.
Qed.

Lemma findall_params_text text rest :
  no_angle text = true ->
  findall_params None (text +:+ rest) = findall_params None rest.
Proof.
  induction text as [|c text IH]; intros H; [reflexivity|].
  simpl in H. apply andb_true_iff in H as [Hc H]. apply not_angle in Hc as [Hlt Hgt].
  rewrite append_cons. simpl. rewrite Hlt, Hgt. now apply IH.
Qed.

Lemma extract_path_text text rest :
  no_angle text = true ->
  extract_path_from None (text +:+ rest) = text +:+ extract_path_from None rest.
Proof.
  induction text as [|c text IH]; intros H; [reflexivity|].
  simpl in H. apply andb_true_iff in H as [Hc H]. apply not_angle in Hc as [Hlt Hgt].
  rewrite !append_cons. simpl. rewrite Hlt, Hgt. now rewrite IH.
Qed.

Lemma findall_params_run run :
  forall acc rest,
    no_angle run = true -> acc +:+ run <> "" ->
    findall_params (Some acc) (run +:+ String ">" rest)
    = (acc +:+ run) :: findall_params None rest.
Proof.
  induction run as [|c run IH]; intros acc rest H Hne.
  - rewrite append_nil_r in *. rewrite append_nil_l. simpl.
    destruct acc; [contradiction | reflexivity].
  - simpl in H. apply andb_true_iff in H as [Hc H].
    apply not_angle in Hc as [Hlt Hgt].
    assert (E : (acc +:+ String c "") +:+ run = acc +:+ String c run)
      by now rewrite append_assoc.
    rewrite append_cons. simpl. rewrite Hlt, Hgt.
    rewrite IH; rewrite ?E; try assumption; reflexivity.
Qed.

Lemma extract_path_run run :
  forall acc rest,
    no_angle run = true -> acc +:+ run <> "" ->
    extract_path_from (Some acc) (run +:+ String ">" rest)
    = "{" +:+ url_name (acc +:+ run) +:+ "}" +:+ extract_path_from None rest.
Proof.
  induction run as [|c run IH]; intros acc rest H Hne.
  - rewrite append_nil_r in *. rewrite append_nil_l. simpl.
    destruct acc; [contradiction | reflexivity].
  - simpl in H. apply andb_true_iff in H as [Hc H].
    apply not_angle in Hc as [Hlt Hgt].
    assert (E : (acc +:+ String c "") +:+ run = acc +:+ String c run)
      by now rewrite append_assoc.
    rewrite append_cons. simpl. rewrite Hlt, Hgt.
    rewrite IH; rewrite ?E; try assumption; reflexivity.
Qed.

(** X1.  In a pattern, a segment [<run>] that follows a text without
    angle bracket, where [run] is not empty and has no angle bracket, is
    read by both scanners: [findall_params] gives [run] and then the
    segments of the rest, and [extract_path] copies the text, writes
    [{name}] for the segment and goes on with the rest. *)
Theorem segment_read_by_both (text run rest : string) :
  no_angle text = true -> no_angle run = true -> run <> "" ->
  findall_params None (text +:+ String "<" (run +:+ String ">" rest))
  = run :: findall_params None rest
  /\ extract_path (text +:+ String "<" (run +:+ String ">" rest))
     = text +:+ "{" +:+ url_name run +:+ "}" +:+ extract_path rest.
Proof.
  intros Htext Hrun Hne. split.
  - rewrite findall_params_text by assumption. simpl.
    now rewrite (findall_params_run run "" rest).
  - unfold extract_path. rewrite extract_path_text by assumption. simpl.
    rewrite (extract_path_run run "" rest) by assumption. reflexivity.
Qed.

Lemma segment_read_by_both_witness :
  findall_params None "/todos/<int:id>/done"
  = ["int:id"]
  /\ extract_path "/todos/<int:id>/done" = "/todos/{id}/done".
Proof.
  apply (segment_read_by_both "/todos/" "int:id" "/done");
    [reflexivity | reflexivity | discriminate].
Defined.

Lemma extract_path_from_no_segment path :
  forall cur,
    findall_params cur path = [] ->
    extract_path_from cur path = pending cur +:+ path.
Proof.
  induction path as [|c path IH]; intros cur H; simpl in *.
  - now rewrite append_nil_r.
  - destruct (Ascii.eqb c "<") eqn:Hlt.
    + apply Ascii.eqb_eq in Hlt as ->. rewrite (IH _ H).
      destruct cur; reflexivity.
    + destruct (Ascii.eqb c ">") eqn:Hgt.
      * apply Ascii.eqb_eq in Hgt as ->.
        destruct cur as [[|a run]|]; try discriminate;
          rewrite (IH _ H); reflexivity.
      * destruct cur as [run|].
        -- rewrite (IH _ H). unfold pending.
           rewrite !append_cons, append_assoc. reflexivity.
        -- now rewrite (IH _ H).
Qed.

(** X2.  A pattern in which [findall_params] finds no segment is its own
    Swagger path, and has no path parameter. *)
Theorem no_segment_no_change (app : App) (path : string) :
  findall_params None path = [] ->
  extract_path path = path /\ extract_path_params app path = Ok [].
Proof.
  intros H. split.
  - unfold extract_path. now rewrite extract_path_from_no_segment.
  - unfold extract_path_params. now rewrite H.
Qed.

Lemma no_segment_no_change_witness :
  extract_path "/todos/<>/a>b<c" = "/todos/<>/a>b<c"
  /\ extract_path_params witness_app "/todos/<>/a>b<c" = Ok [].
Proof. apply no_segment_no_change. reflexivity. Defined.

Lemma split_colon_not_nil s : forall acc, split_colon acc s <> [].
Proof.
  induction s as [|c s IH]; intros acc; simpl; [discriminate|].
  destruct (Ascii.eqb c ":"); [discriminate | apply IH].
Qed.

Lemma split_colon_one s :
  forall acc x seen,
    split_colon acc s = [x] ->
    x = acc +:+ s /\ after_converter seen s = None.
Proof.
  induction s as [|c s IH]; intros acc x seen H; simpl in *.
  - injection H as <-. now rewrite append_nil_r.
  - destruct (Ascii.eqb c ":").
    + injection H as _ H. now apply split_colon_not_nil in H.
    + destruct (IH _ _ true H) as [-> Hnone]. split; [|exact Hnone].
      now rewrite append_assoc.
Qed.

Lemma split_colon_two s :
  forall acc seen c n,
    (acc <> "" -> seen = true) ->
    split_colon acc s = [c; n] -> c <> "" -> n <> "" ->
    after_converter seen s = Some n.
Proof.
  induction s as [|x s IH]; intros acc seen c n Hseen H Hc Hn; simpl in *.
  - discriminate.
  - destruct (Ascii.eqb x ":").
    + injection H as <- H. rewrite (Hseen Hc).
      destruct (split_colon_one _ _ _ false H) as [-> _]. simpl in *.
      destruct s; [contradiction | reflexivity].
    + apply (IH (acc +:+ String x "") true c n); try assumption.
      reflexivity.
Qed.

(** X3.  For a segment that [extract_path_params] splits into a
    converter and a name, both not empty, or that has no colon, the name
    that [extract_path] writes between the braces is the name of the
    path parameter. *)
Theorem template_name_is_param_name (m name : string) (descriptor : option string) :
  split_descriptor m = Ok (descriptor, name) ->
  descriptor <> Some "" -> name <> "" ->
  url_name m = name.
Proof.
  unfold split_descriptor, url_name. intros H Hd Hn.
  destruct (split_colon "" m) as [|a [|b [|c l]]] eqn:Hs; try discriminate.
  - injection H as <- <-.
    destruct (split_colon_one _ _ _ false Hs) as [-> ->]. reflexivity.
  - injection H as <- <-.
    rewrite (split_colon_two m "" false a b); try assumption; try reflexivity.
    + intros Hfalse. now contradiction Hfalse.
    + intros ->. now apply Hd.
Qed.

Lemma template_name_is_param_name_witness : url_name "int:id" = "id".
Proof.
  apply (template_name_is_param_name "int:id" "id" (Some "int"));
    [reflexivity | discriminate | discriminate].
Defined.

(** ** What a registration writes *)

Section Writes.
Variable models : gmap string spec.

Lemma writes_ret {A} (a : A) : writes models (ret a).
Proof.
  exists ∅, (Ok a). split; [apply map_empty_subseteq|].
  intros reg. unfold ret. now rewrite (left_id_L ∅ (∪)).
Qed.

Lemma writes_lift {A} (r : result A) : writes models (lift r).
Proof.
  exists ∅, r. split; [apply map_empty_subseteq|].
  intros reg. unfold lift. now rewrite (left_id_L ∅ (∪)).
Qed.

Lemma writes_sbind {A B} (m : M registry A) (f : A -> M registry B) :
  writes models m -> (forall a, writes models (f a)) -> writes models (sbind m f).
Proof.
  intros (W & r & HW & Hm) Hf. destruct r as [a|e].
  - destruct (Hf a) as (W' & r' & HW' & Hfa).
    exists (W' ∪ W), r'. split; [now apply map_union_least|].
    intros reg. unfold sbind. rewrite Hm, Hfa. now rewrite (assoc_L (∪)).
  - exists W, (Err e). split; [exact HW|].
    intros reg. unfold sbind. now rewrite Hm.
Qed.

Lemma writes_insert n specs :
  models !! n = Some specs ->
  writes models (fun reg : registry => (<[n := specs]> reg, Ok tt)).
Proof.
  intros Hn. exists {[n := specs]}, (Ok tt). split.
  - now apply map_singleton_subseteq_l.
  - intros reg. now rewrite insert_union_singleton_l.
Qed.

Lemma writes_for_each {A} (xs : list A) (body : A -> M registry unit) :
  (forall x, writes models (body x)) -> writes models (for_each xs body).
Proof.
  intros Hb. induction xs as [|x xs IH]; simpl.
  - apply writes_ret.
  - apply writes_sbind; [apply Hb | intros _; exact IH].
Qed.

Lemma register_field_writes (rec : value -> M registry value) f :
  (forall v, writes models (rec v)) -> writes models (register_field rec f).
Proof.
  intros Hrec. induction f as [mapping|nested|container IH|schema]; simpl.
  - apply writes_for_each. intros v.
    apply writes_sbind; [apply Hrec | intros _; apply writes_ret].
  - apply writes_sbind; [apply Hrec | intros _; apply writes_ret].
  - exact IH.
  - apply writes_ret.
Qed.

Lemma writes_ext {A} (m1 m2 : M registry A) :
  (forall reg, m1 reg = m2 reg) -> writes models m1 -> writes models m2.
Proof.
  intros Hext (W & r & HW & Hm). exists W, r. split; [exact HW|].
  intros reg. now rewrite <- Hext.
Qed.

Lemma register_model_with_writes (rec : value -> M registry value) model :
  (forall v, writes models (rec v)) ->
  writes models (register_model_with models rec model).
Proof.
  intros Hrec.
  destruct (find_model models (name_of model)) as [[n specs]|e] eqn:Hf.
  - apply find_model_Ok in Hf as [Hname Hn].
    apply (writes_ext
             (sbind (fun reg : registry => (<[n := specs]> reg, Ok tt))
                (fun _ => sbind (for_each (spec_refs specs) (register_ref rec))
                            (fun _ => ret (ref n))))).
    + intros reg. symmetry. now apply register_model_with_refs.
    + apply writes_sbind; [now apply writes_insert | intros _].
      apply writes_sbind; [|intros _; apply writes_ret].
      apply writes_for_each. intros r. unfold register_ref.
      apply writes_sbind; [apply Hrec | intros _; apply writes_ret].
  - apply (writes_ext (lift (Err e))); [|apply writes_lift].
    intros reg. unfold register_model_with, sbind, lift. now rewrite Hf.
Qed.

Lemma register_model_writes fuel :
  forall model, writes models (register_model models fuel model).
Proof.
  induction fuel as [|fuel IH]; intros model; simpl;
    apply register_model_with_writes; [|exact IH].
  intros v. apply (writes_lift (Err RecursionError)).
Qed.

(** X4.  [serialize_schema] never reads the registry: it writes the same
    entries of [api.models] and gives the same result, return value or
    exception, whatever is registered already.  In particular a model
    that is registered already is registered again, with all that it
    refers to. *)
Theorem serialize_schema_writes (fuel : nat) (model : value) :
  writes models (serialize_schema models fuel model).
Proof.
  induction model as [v Hv| |x xs IH] using value_head_ind.
  - destruct v; try discriminate; simpl;
      try apply register_model_writes;
      try apply writes_ret;
      try apply (writes_lift (Err _)).
    destruct t; try apply writes_ret; apply (writes_lift (Err _)).
  - apply (writes_lift (Err IndexError)).
  - simpl. apply writes_sbind; [exact IH | intros items; apply writes_ret].
Qed.

(** X5.  Registering a model a second time leaves the registry as the
    first registration left it, and gives the same result, at whatever
    depth the recursion is stopped. *)
Theorem register_model_idempotent (fuel : nat) (model : value) (reg : registry) :
  register_model models fuel model (fst (register_model models fuel model reg))
  = register_model models fuel model reg.
Proof.
  destruct (register_model_writes fuel model) as (W & r & _ & H).
  rewrite !H. simpl. now rewrite (assoc_L (∪)), (idemp_L (∪)).
Qed.

(** X6.  A schema declaration that refers to no model (a sequence that
    does not start with a name or a model, a field, a type, or anything
    else) leaves the registry as it is, whether [serialize_schema]
    returns or raises. *)
Theorem serialize_schema_no_reference (fuel : nat) (model : value) (reg : registry) :
  reference model = None ->
  fst (serialize_schema models fuel model reg) = reg.
Proof.
  revert reg. induction model as [v Hv| |x xs IH] using value_head_ind;
    intros reg Href.
  - destruct v; try discriminate; try reflexivity.
    simpl. destruct t; reflexivity.
  - reflexivity.
  - simpl in *. unfold sbind. specialize (IH reg Href).
    destruct (serialize_schema models fuel x reg) as [reg' [a|e]]; exact IH.
Qed.

Lemma for_each_Ok_inv {A} (xs : list A) (body : A -> M registry unit) :
  forall reg reg',
    for_each xs body reg = (reg', Ok tt) ->
    forall x, In x xs -> exists reg1 reg2, body x reg1 = (reg2, Ok tt).
Proof.
  induction xs as [|y xs IH]; intros reg reg' H x Hx; [destruct Hx|].
  simpl in H. apply sbind_Ok in H as (reg1 & [] & Hy & Hrest).
  destruct Hx as [<-|Hx]; [eauto | eapply IH; eauto].
Qed.

Lemma register_model_Ok_edge fuel model n n' reg reg' v :
  name_of model = VStr n -> edge models spec_refs n n' ->
  register_model models fuel model reg = (reg', Ok v) ->
  exists fuel' model' reg1 reg1' v',
    fuel = S fuel' /\ name_of model' = VStr n'
    /\ register_model models fuel' model' reg1 = (reg1', Ok v').
Proof.
  intros Hname (specs & r & Hs & Hr & Hn') Hrun.
  destruct fuel as [|fuel]; simpl in Hrun;
    rewrite (register_model_with_refs models _ model n specs reg Hname Hs) in Hrun;
    apply sbind_Ok in Hrun as (reg1 & [] & Hfor & _);
    destruct (for_each_Ok_inv _ _ _ _ Hfor r Hr) as (ra & rb & Hbody);
    unfold register_ref in Hbody;
    apply sbind_Ok in Hbody as (rc & v' & Hrec & _).
  - discriminate.
  - exists fuel, r, ra, rc, v'. now repeat split.
Qed.

Lemma cyclic_step n n' :
  edge models spec_refs n n' -> rtc (edge models spec_refs) n' n ->
  cyclic models n'.
Proof.
  intros He Hr. apply rtc_inv in Hr as [->|(m & Hm & Hr)].
  - exists n. split; [exact He | apply rtc_refl].
  - exists m. split; [exact Hm|]. eapply rtc_r; eauto.
Qed.

Lemma register_model_cyclic fuel :
  forall model n reg reg' v,
    name_of model = VStr n -> cyclic models n ->
    register_model models fuel model reg <> (reg', Ok v).
Proof.
  induction fuel as [|fuel IH]; intros model n reg reg' v Hname (n' & He & Hr) Hrun;
    destruct (register_model_Ok_edge _ _ _ _ _ _ _ Hname He Hrun)
      as (fuel' & model' & reg1 & reg1' & v' & Hfuel & Hname' & Hrun').
  - discriminate.
  - injection Hfuel as <-.
    exact (IH model' n' reg1 reg1' v' Hname' (cyclic_step n n' He Hr) Hrun').
Qed.

(** X7.  [register_model] never returns for a model that is on a cycle
    of references (a model nested in itself, directly or through other
    models): it raises, however deep the recursion may go. *)
Theorem register_model_cycle (fuel : nat) (model : value) (n n' : string)
  (reg : registry) :
  name_of model = VStr n ->
  edge models spec_refs n n' -> rtc (edge models spec_refs) n' n ->
  exists e, snd (register_model models fuel model reg) = Err e.
Proof.
  intros Hname He Hr.
  destruct (register_model models fuel model reg) as [reg' [v|e]] eqn:Hrun;
    [|now exists e].
  exfalso. eapply register_model_cyclic; [exact Hname | | exact Hrun].
  now exists n'.
Qed.
End Writes.

Lemma register_model_cycle_witness :
  exists e, snd (register_model tree_models 5 (VStr "Tree") ∅) = Err e.
Proof.
  apply (register_model_cycle tree_models 5 (VStr "Tree") "Tree" "Tree" ∅ eq_refl).
  - eexists _, _. split; [reflexivity|]. split; [now left | reflexivity].
  - apply rtc_refl.
Defined.

Lemma serialize_schema_no_reference_witness :
  fst (serialize_schema witness_models 3
         (VList [VType TInt; VStr "Todo"]) ∅) = ∅.
Proof. now apply serialize_schema_no_reference. Defined.

(** ** The registry grows *)

Section Grows.
Variable app : App.
Variable api : Api.

Lemma with_registry_triple {A} (J : registry -> Prop) (E : error -> Prop)
  (m : M registry A) :
  triple J E m ->
  triple (fun w => J (_registered_models w)) any_error (with_registry m).
Proof.
  intros Hm w Hw. unfold with_registry.
  destruct (Hm (_registered_models w) Hw) as [HI _].
  destruct (m (_registered_models w)) as [reg r]. simpl in *.
  split; [exact HI | intros; exact Logic.I].
Qed.

Lemma extends_insert (reg0 reg : registry) n specs :
  models api !! n = Some specs ->
  (forall k s, reg !! k = Some s -> models api !! k = Some s) /\ reg0 ⊆ reg ->
  (forall k s, <[n := specs]> reg !! k = Some s -> models api !! k = Some s)
  /\ reg0 ⊆ <[n := specs]> reg.
Proof.
  intros Hn [Hsound Hsub]. split; [now apply sound_insert|].
  apply map_subseteq_spec. intros k s Hk.
  assert (Hreg : reg !! k = Some s)
    by (now apply (proj1 (map_subseteq_spec reg0 reg) Hsub)).
  destruct (decide (n = k)) as [<-|Hne].
  - rewrite lookup_insert_eq. apply Hsound in Hreg. congruence.
  - now rewrite lookup_insert_ne.
Qed.

Lemma serialize_schema_extends reg0 fuel model :
  triple (extends api reg0) any_error
    (with_registry (serialize_schema (models api) fuel model)).
Proof.
  apply (with_registry_triple
           (fun reg => (forall k s, reg !! k = Some s -> models api !! k = Some s)
                       /\ reg0 ⊆ reg) (unregistered_only (models api))).
  apply serialize_schema_triple.
  intros reg n specs Hn Hreg. now apply extends_insert.
Qed.

Lemma register_model_extends reg0 fuel model :
  triple (extends api reg0) any_error
    (with_registry (register_model (models api) fuel model)).
Proof.
  apply (with_registry_triple
           (fun reg => (forall k s, reg !! k = Some s -> models api !! k = Some s)
                       /\ reg0 ⊆ reg) (unregistered_only (models api))).
  apply register_model_triple.
  intros reg n specs Hn Hreg. now apply extends_insert.
Qed.

Lemma after_call_extends reg0 w c :
  extends api reg0 w -> extends api reg0 (after_call app api w c).
Proof.
  intros Hw. destruct c as [fuel model|fuel model|fuel]; simpl.
  - now apply register_model_extends.
  - now apply serialize_schema_extends.
  - apply as_dict_triple; [| | |exact Hw].
    + apply serialize_schema_extends.
    + intros addr r w' Hw'. split; [exact Hw' | intros; exact Logic.I].
    + intros hs w' Hw'. split; [exact Hw' | intros; exact Logic.I].
Qed.

Lemma after_calls_extends reg0 calls :
  forall w, extends api reg0 w -> extends api reg0 (after_calls app api w calls).
Proof.
  induction calls as [|c calls IH]; intros w Hw; [exact Hw|].
  apply IH. now apply after_call_extends.
Qed.

(** X8.  The registry of a serializer only grows: whatever calls of
    [register_model], [serialize_schema] and [as_dict] follow, returning
    or raising, every entry that is registered stays registered as it
    is. *)
Theorem registry_grows (cs : list resource) (hs : list handler)
  (calls more : list call) :
  _registered_models (after_calls app api (new_swagger cs hs) calls)
  ⊆ _registered_models (after_calls app api (new_swagger cs hs) (calls ++ more)).
Proof.
  unfold after_calls at 2. rewrite fold_left_app.
  fold (after_calls app api (new_swagger cs hs) calls).
  set (w := after_calls app api (new_swagger cs hs) calls).
  assert (H0 : extends api ∅ (new_swagger cs hs)).
  { split; [|apply map_empty_subseteq].
    intros n specs H. simpl in H. rewrite lookup_empty in H. discriminate. }
  assert (Hw : extends api (_registered_models w) w).
  { split; [|reflexivity]. now apply (after_calls_extends ∅ calls). }
  now apply (after_calls_extends _ more) in Hw as [_ Hsub].
Qed.
End Grows.

(** ** What a serialization returns *)

Lemma returns_ret {S A} (a : A) (Q : A -> Prop) : Q a -> returns (@ret S A a) Q.
Proof. intros Ha s s' a' [= _ <-]. exact Ha. Qed.

Lemma returns_raise {S A} e (Q : A -> Prop) : returns (@raise S A e) Q.
Proof. intros s s' a. discriminate. Qed.

Lemma returns_lift {S A} (r : result A) (Q : A -> Prop) :
  (forall a, r = Ok a -> Q a) -> returns (@lift S A r) Q.
Proof. intros Hr s s' a [= _ H]. now apply Hr. Qed.

Lemma returns_gets {S A} (f : S -> result A) (Q : A -> Prop) :
  (forall s a, f s = Ok a -> Q a) -> returns (gets f) Q.
Proof. intros Hf s s' a [= _ H]. now apply (Hf s). Qed.

Lemma returns_sbind {S A B} (m : M S A) (f : A -> M S B) (P : A -> Prop)
  (Q : B -> Prop) :
  returns m P -> (forall a, P a -> returns (f a) Q) -> returns (sbind m f) Q.
Proof.
  intros Hm Hf s s' b H. apply sbind_Ok in H as (s1 & a & Ha & Hb).
  exact (Hf a (Hm _ _ _ Ha) _ _ _ Hb).
Qed.

Lemma returns_any {S A} (m : M S A) : returns m (fun _ => True).
Proof. intros s s' a _. exact Logic.I. Qed.

Lemma Forall_dict_set {A} (P : A -> Prop) k v (d : list (key * A)) :
  P v -> Forall (fun kv => P (snd kv)) d ->
  Forall (fun kv => P (snd kv)) (dict_set k v d).
Proof.
  intros Hv. induction d as [|[k' v'] d IH]; simpl; intros Hd.
  - constructor; [exact Hv | constructor].
  - inversion Hd as [|? ? Hhead Htail]; subst.
    destruct (decide (k = k')); constructor; auto.
Qed.

Lemma dict_has_set {A} k k' (v : A) (d : list (key * A)) :
  dict_has k' (dict_set k v d) = bool_decide (k = k') || dict_has k' d.
Proof.
  unfold dict_has. rewrite dict_get_set.
  destruct (decide (k = k')) as [->|Hne].
  - now rewrite bool_decide_eq_true_2.
  - now rewrite bool_decide_eq_false_2.
Qed.

(** ** Responses *)

Section Responses.
Variable api : Api.
Variable fuel : nat.

Lemma described_set k v r :
  described (VDict r) = true -> described (VDict (dict_set k v r)) = true.
Proof.
  simpl. rewrite !dict_has_set. intros H.
  apply orb_true_iff in H as [-> | ->]; rewrite ?orb_true_r; reflexivity.
Qed.

Lemma response_set_described code k v responses responses' :
  all_described responses ->
  response_set code k v responses = Ok responses' ->
  all_described responses'.
Proof.
  unfold response_set. intros Hall H.
  destruct (dict_get code responses) as [[| | | | |r| | | | | |]|] eqn:Hcode;
    try discriminate.
  injection H as <-.
  apply (Forall_dict_set (fun v => described v = true)); [|exact Hall].
  apply described_set.
  exact (dict_get_Forall (fun v => described v = true) _ _ _ Hall Hcode).
Qed.

Lemma declared_responses_described entries :
  forall responses,
    all_described responses ->
    returns (declared_responses api fuel entries responses) all_described.
Proof.
  induction entries as [|[code response] entries IH]; intros responses Hall; simpl.
  - now apply returns_ret.
  - apply (returns_sbind _ _ (fun _ => True)); [apply returns_any|].
    intros [description model] _.
    apply (returns_sbind _ _ all_described).
    + destruct (dict_has code responses).
      * apply returns_lift. intros a. now apply response_set_described.
      * apply returns_ret.
        now apply (Forall_dict_set (fun v => described v = true)).
    + intros responses1 Hall1.
      apply (returns_sbind _ _ all_described); [|exact (IH)].
      destruct (truthy model); [|now apply returns_ret].
      apply (returns_sbind _ _ (fun _ => True)); [apply returns_any|].
      intros schema _. apply returns_lift. intros a.
      now apply response_set_described.
Qed.

Lemma raised_response_described name hs :
  forall responses responses',
    all_described responses ->
    raised_response name hs responses = Ok responses' ->
    all_described responses'.
Proof.
  induction hs as [|h hs IH]; intros responses responses' Hall H; simpl in H.
  - now injection H as <-.
  - apply bind_Ok in H as (code & _ & H).
    destruct code as [code|]; [|now apply (IH responses)].
    destruct (key_truthy code && String.eqb (handler_exception h) name);
      [|now apply (IH responses)].
    injection H as <-.
    now apply (Forall_dict_set (fun v => described v = true)).
Qed.

Lemma raised_responses_described raised hs :
  forall responses responses',
    all_described responses ->
    raised_responses raised hs responses = Ok responses' ->
    all_described responses'.
Proof.
  induction raised as [|[name d] raised IH]; intros responses responses' Hall H;
    simpl in H.
  - now injection H as <-.
  - apply bind_Ok in H as (responses1 & H1 & H).
    apply (IH responses1); [|exact H].
    now apply (raised_response_described _ _ _ _ Hall H1).
Qed.

Lemma responses_from_described d responses :
  all_described responses ->
  returns (responses_from api fuel d responses) all_described.
Proof.
  intros Hall. unfold responses_from.
  apply (returns_sbind _ _ all_described).
  { destruct (dict_get (KStr "responses") d); [|now apply returns_ret].
    apply (returns_sbind _ _ (fun _ => True)); [apply returns_any|].
    intros entries _. now apply declared_responses_described. }
  intros responses1 Hall1.
  apply (returns_sbind _ _ all_described).
  { destruct (dict_get (KStr "model") d) as [model|]; [|now apply returns_ret].
    apply (returns_sbind _ _ (fun _ => True)); [apply returns_any|].
    intros schema _. apply returns_lift. intros a.
    apply response_set_described.
    destruct (dict_has _ responses1); [exact Hall1|].
    now apply (Forall_dict_set (fun v => described v = true)). }
  intros responses2 Hall2.
  destruct (dict_get (KStr "docstring") d); [|now apply returns_ret].
  apply (returns_sbind _ _ (fun _ => True)); [apply returns_any|]. intros ds _.
  apply (returns_sbind _ _ (fun _ => True)); [apply returns_any|]. intros r1 _.
  apply (returns_sbind _ _ (fun _ => True)); [apply returns_any|]. intros r2 _.
  apply returns_gets. intros w a. now apply raised_responses_described.
Qed.

Lemma responses_for_returns doc method :
  returns (responses_for api fuel doc method)
    (fun r => r <> [] /\ all_described r).
Proof.
  unfold responses_for.
  apply (returns_sbind _ _ (fun _ => True)); [apply returns_any|]. intros md0 _.
  apply (returns_sbind _ _ (fun _ => True)); [apply returns_any|]. intros md _.
  apply (returns_sbind _ _ all_described);
    [apply responses_from_described; constructor|].
  intros r1 H1.
  apply (returns_sbind _ _ all_described);
    [now apply responses_from_described|].
  intros r2 H2. destruct r2 as [|kv r2]; apply returns_ret.
  - split; [discriminate|]. repeat constructor.
  - split; [discriminate | exact H2].
Qed.

End Responses.


(** ** Parameters *)

Lemma complete_param_set k v d :
  complete_param (VDict d) = true ->
  complete_param (VDict (dict_set k v d)) = true.
Proof.
  simpl. rewrite !dict_has_set. intros H.
  apply andb_true_iff in H as [H Hts]. apply andb_true_iff in H as [-> ->].
  rewrite !orb_true_r. simpl.
  apply orb_true_iff in Hts as [-> | ->]; rewrite ?orb_true_r; reflexivity.
Qed.

Lemma parameter_of_complete name param p :
  parameter_of name param = Ok p -> complete_param p = true.
Proof.
  unfold parameter_of. intros H. apply bind_Ok in H as (d & _ & H).
  cbv zeta in H.
  set (p1 := dict_set (KStr "name") (key_value name) d) in *.
  set (p2 := if negb (dict_has (KStr "type") p1) && negb (dict_has (KStr "schema") p1)
             then dict_set (KStr "type") (VStr "string") p1 else p1) in *.
  set (p3 := if negb (dict_has (KStr "in") p2)
             then dict_set (KStr "in") (VStr "query") p2 else p2) in *.
  assert (N1 : dict_has (KStr "name") p1 = true)
    by (subst p1; rewrite dict_has_set; reflexivity).
  assert (C2 : dict_has (KStr "name") p2 = true
               /\ dict_has (KStr "type") p2 || dict_has (KStr "schema") p2 = true).
  { subst p2.
    destruct (dict_has (KStr "type") p1) eqn:Ht;
      destruct (dict_has (KStr "schema") p1) eqn:Hs; simpl;
      rewrite ?dict_has_set, ?N1, ?Ht, ?Hs; split; reflexivity. }
  destruct C2 as [N2 T2].
  assert (C3 : complete_param (VDict p3) = true).
  { clear H. subst p3. unfold complete_param.
    destruct (dict_has (KStr "in") p2) eqn:Hin; cbn [negb];
      rewrite ?dict_has_set, ?N2, ?Hin;
      destruct (dict_has (KStr "type") p2), (dict_has (KStr "schema") p2);
      try discriminate T2; reflexivity. }
  clearbody p3. clear - H C3.
  destruct (dict_has (KStr "type") p3 && negb (dict_has (KStr "schema") p3));
    [|now injection H as <-].
  destruct (get_default (KStr "type") VNone p3) as [| | | |xs| |t| | | | |];
    simpl in H;
    try (injection H as <-; first [exact C3 | now apply complete_param_set]).
  - destruct xs as [|typ xs]; [discriminate|].
    destruct (hashable typ); [|discriminate].
    injection H as <-. now do 2 apply complete_param_set.
  - destruct t; injection H as <-;
      first [exact C3 | now apply complete_param_set].
Qed.

Lemma parameters_of_complete entries :
  forall params,
    parameters_of entries = Ok params ->
    Forall (fun p => complete_param p = true) params.
Proof.
  induction entries as [|[name param] entries IH]; intros params H; simpl in H.
  - injection H as <-. constructor.
  - apply bind_Ok in H as (p & Hp & H). apply bind_Ok in H as (ps & Hps & H).
    injection H as <-. constructor; [now apply (parameter_of_complete name param)|].
    now apply IH.
Qed.

Lemma mask_param_complete header mask :
  complete_param (mask_param header mask) = true.
Proof. destruct mask; reflexivity. Qed.

Lemma parameters_for_all_complete (app : App) (doc : dict) (method : string)
  (params : list value) :
  parameters_for app doc method = Ok params ->
  Forall (fun p => complete_param p = true) params.
Proof.
  unfold parameters_for. intros H.
  apply bind_Ok in H as (ps0 & _ & H). apply bind_Ok in H as (md & _ & H).
  apply bind_Ok in H as (mps & _ & H). apply bind_Ok in H as (merged0 & _ & H).
  apply bind_Ok in H as (merged & _ & H). apply bind_Ok in H as (ps & Hps & H).
  apply parameters_of_complete in Hps.
  destruct (truthy _); [|now injection H as <-].
  apply bind_Ok in H as (enabled & _ & H).
  destruct (truthy enabled); [|now injection H as <-].
  apply bind_Ok in H as (header & _ & H). injection H as <-.
  apply Forall_app. split; [exact Hps|].
  constructor; [apply mask_param_complete | constructor].
Qed.

(** X10.  Every parameter that [parameters_for] returns, the fields mask
    header included, is a mapping with a name, a location and a type or
    a schema. *)
Theorem parameters_for_complete (app : App) (doc : dict) (method : string)
  (params : list value) :
  parameters_for app doc method = Ok params ->
  forall p, In p params -> complete_param p = true.
Proof.
  intros H p Hp. apply parameters_for_all_complete in H.
  rewrite List.Forall_forall in H. now apply H.
Qed.

Lemma parameters_for_complete_witness :
  Forall (fun p => complete_param p = true) search_params.
Proof.
  apply List.Forall_forall.
  apply (parameters_for_complete mask_app search_doc "get"). reflexivity.
Defined.

(** ** Tags *)

Lemma named_app n tags tag : named n tags -> named n (tags ++ [tag]).
Proof.
  intros (i & t & Hi & Hn). exists i, t. split; [|exact Hn].
  now apply lookup_app_l_Some.
Qed.

Lemma named_last n tags tag :
  dict_get (KStr "name") tag = Some n -> named n (tags ++ [tag]).
Proof.
  intros Hn. exists (length tags), tag. split; [|exact Hn].
  rewrite lookup_app_r by reflexivity. now rewrite Nat.sub_diag.
Qed.

Lemma named_alter n tags i v :
  named n tags ->
  named n (alter (dict_set (KStr "description") v) i tags).
Proof.
  intros (j & t & Hj & Hn). destruct (decide (i = j)) as [->|Hne].
  - exists j, (dict_set (KStr "description") v t). split.
    + rewrite list_lookup_alter_eq. now rewrite Hj.
    + rewrite dict_get_set_ne; [exact Hn | discriminate].
  - exists j, t. split; [|exact Hn]. now rewrite list_lookup_alter_ne.
Qed.

Lemma indexed_named tags by_name n i :
  indexed tags by_name -> dict_get (KStr n) by_name = Some i ->
  named (VStr n) tags.
Proof. intros Hix Hi. destruct (Hix _ _ Hi) as (tag & Ht & Hn). now exists i, tag. Qed.

Lemma indexed_app tags by_name tag :
  indexed tags by_name -> indexed (tags ++ [tag]) by_name.
Proof.
  intros Hix k i Hi. destruct (Hix k i Hi) as (t & Ht & Hn).
  exists t. split; [now apply lookup_app_l_Some | exact Hn].
Qed.

Lemma indexed_alter tags by_name i v :
  indexed tags by_name ->
  indexed (alter (dict_set (KStr "description") v) i tags) by_name.
Proof.
  intros Hix k j Hj. destruct (Hix k j Hj) as (t & Ht & Hn).
  destruct (decide (i = j)) as [->|Hne].
  - exists (dict_set (KStr "description") v t). split.
    + rewrite list_lookup_alter_eq. now rewrite Ht.
    + rewrite dict_get_set_ne; [exact Hn | discriminate].
  - exists t. split; [|exact Hn]. now rewrite list_lookup_alter_ne.
Qed.

Lemma indexed_set tags by_name k tag :
  indexed tags by_name ->
  dict_get (KStr "name") tag = Some (key_value k) ->
  indexed (tags ++ [tag]) (dict_set k (length tags) by_name).
Proof.
  intros Hix Hn k' i Hi. rewrite dict_get_set in Hi.
  destruct (decide (k = k')) as [<-|Hne].
  - injection Hi as <-. exists tag. split; [|exact Hn].
    rewrite lookup_app_r by reflexivity. now rewrite Nat.sub_diag.
  - exact (indexed_app tags by_name tag Hix k' i Hi).
Qed.

Lemma declared_tags_indexed declared :
  forall tags by_name tags' by_name',
    indexed tags by_name ->
    declared_tags declared tags by_name = Ok (tags', by_name') ->
    indexed tags' by_name'.
Proof.
  induction declared as [|tag declared IH];
    intros tags by_name tags' by_name' Hix H; simpl in H.
  - now injection H as <- <-.
  - apply bind_Ok in H as (t & _ & H). apply bind_Ok in H as (n & Hn & H).
    apply bind_Ok in H as (by_name1 & Hb & H).
    apply (IH (tags ++ [t]) by_name1); [|exact H].
    unfold getitem in Hn.
    destruct (dict_get (KStr "name") t) as [x|] eqn:Hx; [|discriminate].
    injection Hn as ->.
    destruct n; try discriminate; injection Hb as <-;
      first [now apply indexed_app | now apply indexed_set].
Qed.

Lemma namespace_tags_named n nss :
  forall tags by_name,
    named n tags -> named n (namespace_tags nss tags by_name).
Proof.
  induction nss as [|ns nss IH]; intros tags by_name Hn; simpl; [exact Hn|].
  destruct (dict_get (KStr (ns_name ns)) by_name) as [i|].
  - destruct (truthy (ns_description ns)); apply IH; [|exact Hn].
    now apply named_alter.
  - apply IH. now apply named_app.
Qed.

Lemma namespace_tags_covers nss :
  forall tags by_name ns,
    indexed tags by_name -> In ns nss ->
    named (VStr (ns_name ns)) (namespace_tags nss tags by_name).
Proof.
  induction nss as [|ns0 nss IH]; intros tags by_name ns Hix Hin; [destruct Hin|].
  simpl. destruct Hin as [->|Hin].
  - destruct (dict_get (KStr (ns_name ns)) by_name) as [i|] eqn:Hi.
    + pose proof (indexed_named _ _ _ _ Hix Hi) as Hn.
      destruct (truthy (ns_description ns)); apply namespace_tags_named;
        [now apply named_alter | exact Hn].
    + apply namespace_tags_named. now apply named_last.
  - destruct (dict_get (KStr (ns_name ns0)) by_name) as [i|].
    + destruct (truthy (ns_description ns0)); apply IH; try assumption.
      now apply indexed_alter.
    + apply IH; [now apply indexed_app | exact Hin].
Qed.

(** X11.  The tags that [extract_tags] returns hold, for every namespace
    of the API, a tag of the name of the namespace: the declared tag of
    that name, or one made for the namespace. *)
Theorem extract_tags_namespaces (api : Api) (tags : list value) :
  extract_tags api = Ok tags ->
  forall ns, In ns (namespaces api) ->
    exists tag,
      In (VDict tag) tags
      /\ dict_get (KStr "name") tag = Some (VStr (ns_name ns)).
Proof.
  unfold extract_tags. intros H ns Hns.
  apply bind_Ok in H as ([declared by_name] & Hd & H). injection H as <-.
  assert (Hix : indexed declared by_name).
  { apply (declared_tags_indexed (tags api) [] []); [|exact Hd].
    intros k i Hk. discriminate. }
  destruct (namespace_tags_covers _ _ _ ns Hix Hns) as (i & tag & Hi & Hn).
  exists tag. split; [|exact Hn].
  apply in_map. apply list_elem_of_In. now apply list_elem_of_lookup_2 with i.
Qed.

Lemma extract_tags_namespaces_witness :
  Forall (fun ns => exists tag,
                      In (VDict tag) tagged_tags
                      /\ dict_get (KStr "name") tag = Some (VStr (ns_name ns)))
    (namespaces tagged_api).
Proof.
  apply List.Forall_forall.
  apply (extract_tags_namespaces tagged_api). reflexivity.
Defined.

(** ** Operations *)

Lemma Forall_dict_set_entry {A} (P : key * A -> Prop) k v (d : list (key * A)) :
  P (k, v) -> Forall P d -> Forall P (dict_set k v d).
Proof.
  intros Hv. induction d as [|[k' v'] d IH]; simpl; intros Hd.
  - constructor; [exact Hv | constructor].
  - inversion Hd as [|? ? Hhead Htail]; subst.
    destruct (decide (k = k')); constructor; auto.
Qed.

Section Operations.
Variable app : App.
Variable api : Api.
Variable fuel : nat.

Lemma serialize_operations_tagged ns doc (all : list string) methods :
  forall operations,
    (forall m, In m methods -> In m all) ->
    Forall (fun kv => In (fst kv) (map KStr all) /\ tagged (ns_name ns) (snd kv))
      operations ->
    returns (serialize_operations app api fuel ns doc methods operations)
      (Forall (fun kv => In (fst kv) (map KStr all)
                         /\ tagged (ns_name ns) (snd kv))).
Proof.
  induction methods as [|method methods IH]; intros operations Hsub Hall; simpl.
  - now apply returns_ret.
  - assert (Hrest : forall m, In m methods -> In m all)
      by (intros m Hm; apply Hsub; now right).
    apply (returns_sbind _ _ (fun _ => True)); [apply returns_any|]. intros md _.
    assert (Hstep :
      returns
        (exec operation <- serialize_operation app api fuel doc method;
         exec operation <- lift (as_dict_of operation TypeError);
         serialize_operations app api fuel ns doc methods
           (dict_set (KStr method)
              (VDict (dict_set (KStr "tags") (VList [VStr (ns_name ns)]) operation))
              operations))
        (Forall (fun kv => In (fst kv) (map KStr all)
                           /\ tagged (ns_name ns) (snd kv)))).
    { apply (returns_sbind _ _ (fun _ => True)); [apply returns_any|].
      intros operation _.
      apply (returns_sbind _ _ (fun _ => True)); [apply returns_any|].
      intros o _. apply IH; [exact Hrest|].
      apply Forall_dict_set_entry; [|exact Hall]. split; simpl.
      - apply (in_map KStr). apply Hsub. now left.
      - eexists. split; [reflexivity|]. apply dict_get_set_eq. }
    destruct md as [|[]| | | | | | | | | |]; try exact Hstep.
    now apply IH.
Qed.

(** X12.  The operations that [serialize_resource] returns are keyed by
    lower-cased methods of the resource class, and each is a mapping
    whose tags are the name of the namespace, and nothing else. *)
Theorem serialize_resource_operations (ns : namespace) (addr : nat) (url : string)
  (w w' : world) (operations : dict) (r : resource) (methods : list string) :
  serialize_resource app api fuel ns addr url w = (w', Ok (VDict operations)) ->
  classes w' !! addr = Some r ->
  method_names (res_methods r) = Ok methods ->
  forall k operation,
    In (k, operation) operations ->
    In k (map KStr methods) /\ tagged (ns_name ns) operation.
Proof.
  unfold serialize_resource. intros H Hr Hmethods.
  apply sbind_Ok in H as (w1 & doc & _ & H).
  assert (Hrun :
    (exec doc <- lift (as_dict_of doc TypeError);
     exec r <- get_class addr;
     exec methods <- lift (method_names (res_methods r));
     exec operations <- serialize_operations app api fuel ns doc methods [];
     ret (VDict operations)) w1 = (w', Ok (VDict operations))).
  { destruct doc as [|[]| | | | | | | | | |]; try exact H. discriminate. }
  clear H.
  apply sbind_Ok in Hrun as (w2 & d & Hd & Hrun). injection Hd as <- _.
  apply sbind_Ok in Hrun as (w3 & r1 & Hr1 & Hrun).
  unfold get_class, gets in Hr1.
  destruct (classes w1 !! addr) as [r1'|] eqn:Hclass; [|discriminate].
  injection Hr1 as <- <-.
  apply sbind_Ok in Hrun as (w4 & methods1 & Hm1 & Hrun). injection Hm1 as <- Hm1.
  apply sbind_Ok in Hrun as (w5 & operations1 & Hops & Hrun).
  injection Hrun as <- <-.
  pose proof (serialize_operations_triple app api fuel (same_objects w1)
                (fun model => with_registry_same_objects _ w1)
                ns d methods1 [] w1 (conj eq_refl eq_refl)) as [[Hcs _] _].
  rewrite Hops in Hcs. simpl in Hcs. rewrite Hcs, Hclass in Hr.
  injection Hr as <-. rewrite Hm1 in Hmethods. injection Hmethods as <-.
  pose proof (serialize_operations_tagged ns d methods1 methods1 []
                (fun m Hm => Hm) ltac:(constructor) _ _ _ Hops) as Hall.
  intros k operation Hin. rewrite List.Forall_forall in Hall.
  exact (Hall _ Hin).
Qed.
End Operations.

Lemma serialize_resource_operations_witness :
  Forall (fun kv => In (fst kv) (map KStr ["get"]) /\ tagged "todos" (snd kv))
    todo_operations.
Proof.
  apply List.Forall_forall. intros [k operation].
  apply (serialize_resource_operations witness_app (todo_api [todo_namespace]) 3
           todo_namespace 0 "/todos/<int:id>" todo_world todo_served
           todo_operations todo_served_resource ["get"]).
  - vm_compute. reflexivity.
  - reflexivity.
  - reflexivity.
Defined.

(** ** Security requirements *)

(** X13.  In a requirement that [security_requirement] returns, every
    scheme is given a sequence of scopes; a requirement that is
    normalised already is left as it is. *)
Theorem security_requirement_normal (v : value) :
  (forall d k scopes,
      security_requirement v = VDict d -> In (k, scopes) d ->
      is_list scopes = true)
  /\ security_requirement (security_requirement v) = security_requirement v.
Proof.
  split.
  - intros d k scopes H Hin.
    destruct v as [| | |s| |d0| | | | | |]; try discriminate.
    + injection H as <-. destruct Hin as [[= <- <-]|[]]. reflexivity.
    + injection H as <-. apply in_map_iff in Hin as ([k0 x] & [= <- <-] & _).
      simpl. now destruct (is_list x) eqn:Hx.
  - destruct v as [| | |s| |d0| | | | | |]; try reflexivity.
    simpl. f_equal. rewrite map_map. apply map_ext. intros [k x]. simpl.
    destruct (is_list x) eqn:Hx; simpl; [now rewrite Hx | reflexivity].
Qed.

(** ** Error responses *)

Section Errors.
Variable api : Api.
Variable fuel : nat.

Lemma register_errors_loop_keys hs :
  forall i responses w w' responses',
    register_errors_loop api fuel i hs responses w = (w', Ok responses') ->
    forall k,
      In k (keys responses')
      <-> In k (keys responses)
          \/ exists h, In h hs /\ k = KStr (handler_exception h).
Proof.
  induction hs as [|h hs IH]; intros i responses w w' responses' H k; simpl in H.
  - injection H as _ <-. split; [now left | intros [Hk|(h & [] & _)]; exact Hk].
  - apply sbind_Ok in H as (w1 & response & _ & H).
    rewrite (IH _ _ _ _ _ H k), keys_dict_set. split.
    + intros [[->|Hk]|(h' & Hin & ->)].
      * right. exists h. split; [now left | reflexivity].
      * now left.
      * right. exists h'. split; [now right | reflexivity].
    + intros [Hk|(h' & [<-|Hin] & ->)].
      * left. now right.
      * left. now left.
      * right. now exists h'.
Qed.

(** X14.  The responses that [register_errors] returns are keyed by the
    names of the exception classes that have a handler: one entry for
    each name, and no other. *)
Theorem register_errors_keys (w w' : world) (responses : dict) :
  register_errors api fuel w = (w', Ok responses) ->
  forall k,
    In k (keys responses)
    <-> exists h, In h (handlers w) /\ k = KStr (handler_exception h).
Proof.
  unfold register_errors. intros H k.
  apply sbind_Ok in H as (w1 & hs & Hhs & H). injection Hhs as <- <-.
  rewrite (register_errors_loop_keys _ _ _ _ _ _ H k). split.
  - intros [[]|Hk]. exact Hk.
  - intros Hk. now right.
Qed.
End Errors.

Lemma register_errors_keys_witness :
  In (KStr "NotFound") (keys error_responses)
  <-> exists h, In h [not_found_handler]
                /\ KStr "NotFound" = KStr (handler_exception h).
Proof.
  apply (register_errors_keys (todo_api []) 3 error_world
           (fst (register_errors (todo_api []) 3 error_world))).
  vm_compute. reflexivity.
Defined.

(** ** The documentation of the methods *)

Section MethodEntries.
Variable app : App.
Variable api : Api.
Variable fuel : nat.

Lemma doc_setitem_returns addr shared k v doc :
  returns (doc_setitem addr shared k v doc) (fun d => d = dict_set k v doc).
Proof.
  unfold doc_setitem. destruct shared; [|now apply returns_ret].
  apply (returns_sbind _ _ (fun _ => True)); [apply returns_any|]. intros r _.
  apply (returns_sbind _ _ (fun _ => True)); [apply returns_any|]. intros _ _.
  now apply returns_ret.
Qed.

Lemma method_entry_set doc method md m :
  (md = VBool false
   \/ exists d, md = VDict d
                /\ dict_has (KStr "docstring") d = true
                /\ dict_has (KStr "params") d = true) ->
  m = method \/ method_entry doc m ->
  method_entry (dict_set (KStr method) md doc) m.
Proof.
  intros Hmd Hm. unfold method_entry. rewrite dict_get_set.
  destruct (decide (KStr method = KStr m)) as [Heq|Hne].
  - now exists md.
  - destruct Hm as [->|Hm]; [congruence | exact Hm].
Qed.

Lemma extract_method_doc_entry r addr shared method doc :
  returns (extract_method_doc api fuel r addr shared method doc)
    (fun doc' => forall m, m = method \/ method_entry doc m -> method_entry doc' m).
Proof.
  unfold extract_method_doc.
  destruct (assoc_impl method (res_attrs r)) as [impl|]; [|apply returns_raise].
  apply (returns_sbind _ _ (fun _ => True)); [apply returns_any|]. intros md0 _.
  apply (returns_sbind _ _
           (fun md => md = VBool false
                      \/ exists d, md = VDict d
                                   /\ dict_has (KStr "docstring") d = true
                                   /\ dict_has (KStr "params") d = true)).
  - destruct md0 as [|[]| | | |d| | | | | |]; try apply returns_raise.
    + apply returns_ret. now left.
    + apply (returns_sbind _ _ (fun _ => True)); [apply returns_any|].
      intros params _. apply returns_ret. right. eexists. split; [reflexivity|].
      rewrite !dict_has_set. split; reflexivity.
  - intros md Hmd s s' doc' H m Hm.
    rewrite (doc_setitem_returns _ _ _ _ _ _ _ _ H).
    now apply method_entry_set.
Qed.

Lemma extract_methods_doc_entries r addr shared methods :
  forall doc,
    returns (extract_methods_doc api fuel r addr shared methods doc)
      (fun doc' => forall m, In m methods \/ method_entry doc m ->
                             method_entry doc' m).
Proof.
  induction methods as [|method methods IH]; intros doc; simpl.
  - apply returns_ret. intros m [[]|Hm]. exact Hm.
  - eapply returns_sbind; [apply extract_method_doc_entry|].
    intros doc1 H1 s s' doc' H m Hm.
    apply (IH doc1 _ _ _ H).
    destruct Hm as [[<-|Hm]|Hm]; [right; apply H1; now left | now left|].
    right. apply H1. now right.
Qed.

(** X15.  The documentation that [extract_resource_doc] returns has, for
    every lower-cased method of the resource class, an entry that is
    [False] or a mapping with the parsed docstring and the parameters
    of the method: what [serialize_operation] reads is there. *)
Theorem extract_resource_doc_methods (addr : nat) (url : string) (w w' : world)
  (doc : dict) (r : resource) (methods : list string) :
  extract_resource_doc app api fuel addr url w = (w', Ok (VDict doc)) ->
  classes w !! addr = Some r ->
  method_names (res_methods r) = Ok methods ->
  forall m, In m methods -> method_entry doc m.
Proof.
  unfold extract_resource_doc. intros H Hr Hmethods m Hm.
  apply sbind_Ok in H as (w1 & r1 & Hr1 & H).
  unfold get_class, gets in Hr1. rewrite Hr in Hr1. injection Hr1 as <- <-.
  destruct (match res_apidoc r with
            | Some d => (true, d)
            | None => (false, VDict [])
            end) as [shared doc0].
  destruct doc0 as [|[]| | | |d0| | | | | |]; try discriminate.
  apply sbind_Ok in H as (w2 & d1 & _ & H).
  apply sbind_Ok in H as (w3 & path_params & _ & H).
  apply sbind_Ok in H as (w4 & params & _ & H).
  apply sbind_Ok in H as (w5 & d2 & _ & H).
  apply sbind_Ok in H as (w6 & methods1 & Hm1 & H).
  injection Hm1 as _ Hm1. rewrite Hmethods in Hm1. injection Hm1 as <-.
  apply sbind_Ok in H as (w7 & d3 & Hloop & H). injection H as _ <-.
  apply (extract_methods_doc_entries _ _ _ _ _ _ _ _ Hloop). now left.
Qed.
End MethodEntries.

Lemma extract_resource_doc_methods_witness :
  method_entry todo_resource_doc "get".
Proof.
  apply (extract_resource_doc_methods witness_app (todo_api [todo_namespace]) 3 0
           "/todos/<int:id>" todo_world
           (fst (extract_resource_doc witness_app (todo_api [todo_namespace]) 3 0
                   "/todos/<int:id>" todo_world))
           todo_resource_doc todo_resource ["get"]).
  - vm_compute. reflexivity.
  - reflexivity.
  - reflexivity.
  - now left.
Defined.

(** ** Paths *)

Lemma sorted_insert_In kv d x :
  In x (sorted_insert kv d) <-> x = kv \/ In x d.
Proof.
  induction d as [|kv' d IH]; simpl.
  - intuition congruence.
  - destruct (key_leb (fst kv) (fst kv')); simpl.
    + intuition congruence.
    + rewrite IH. intuition congruence.
Qed.

Lemma sorted_items_In d x : In x (sorted_items d) <-> In x d.
Proof.
  induction d as [|kv d IH]; simpl; [tauto|].
  rewrite sorted_insert_In, IH. intuition congruence.
Qed.

Lemma not_none_sorted_In k v d :
  In (k, v) (not_none_sorted d) <-> In (k, v) d /\ v <> VNone.
Proof.
  unfold not_none_sorted, not_none. rewrite filter_In, sorted_items_In. simpl.
  split; intros [Hin Hv]; (split; [exact Hin|]).
  - intros ->. discriminate.
  - now destruct v.
Qed.

Section Paths.
Variable app : App.
Variable api : Api.
Variable fuel : nat.
Variable P : key -> Prop.

Lemma url_paths_keys ns addr urls :
  forall paths,
    (forall url, In url urls -> P (KStr (extract_path url))) ->
    Forall (fun kv => P (fst kv)) paths ->
    returns (url_paths app api fuel ns addr urls paths)
      (Forall (fun kv => P (fst kv))).
Proof.
  induction urls as [|url urls IH]; intros paths HP Hall; simpl.
  - now apply returns_ret.
  - apply (returns_sbind _ _ (fun _ => True)); [apply returns_any|].
    intros operations _. apply IH.
    + intros u Hu. apply HP. now right.
    + apply Forall_dict_set_entry; [|exact Hall]. apply HP. now left.
Qed.

Lemma resource_paths_keys ns resources :
  forall paths,
    (forall endpoint addr urls url,
        In (endpoint, (addr, urls)) resources -> In url urls ->
        P (KStr (extract_path url))) ->
    Forall (fun kv => P (fst kv)) paths ->
    returns (resource_paths app api fuel ns resources paths)
      (Forall (fun kv => P (fst kv))).
Proof.
  induction resources as [|[endpoint [addr urls]] resources IH];
    intros paths HP Hall; simpl.
  - now apply returns_ret.
  - apply (returns_sbind _ _ (Forall (fun kv => P (fst kv)))).
    + apply url_paths_keys; [|exact Hall].
      intros url Hurl. apply (HP endpoint addr urls); [now left | exact Hurl].
    + intros paths1 Hall1. apply IH; [|exact Hall1].
      intros e a us u Hin Hu. apply (HP e a us); [now right | exact Hu].
Qed.

Lemma namespace_paths_keys nss :
  forall paths,
    (forall ns endpoint addr urls url,
        In ns nss -> In (endpoint, (addr, urls)) (ns_resources ns) ->
        In url urls -> P (KStr (extract_path url))) ->
    Forall (fun kv => P (fst kv)) paths ->
    returns (namespace_paths app api fuel nss paths)
      (Forall (fun kv => P (fst kv))).
Proof.
  induction nss as [|ns nss IH]; intros paths HP Hall; simpl.
  - now apply returns_ret.
  - apply (returns_sbind _ _ (Forall (fun kv => P (fst kv)))).
    + apply resource_paths_keys; [|exact Hall].
      intros e a us u Hin Hu. apply (HP ns e a us); [now left | exact Hin | exact Hu].
    + intros paths1 Hall1. apply IH; [|exact Hall1].
      intros ns' e a us u Hns Hin Hu.
      apply (HP ns' e a us); [now right | exact Hin | exact Hu].
Qed.
End Paths.

(** X16.  Every entry of the [paths] of the specification that [as_dict]
    returns stands under the Swagger path of a URL of a resource of a
    namespace of the API, and holds operations: a resource whose
    documentation is [False] has no entry. *)
Theorem as_dict_paths (app : App) (api : Api) (fuel : nat) (w w' : world)
  (specs paths : dict) :
  as_dict app api fuel w = (w', Ok (VDict specs)) ->
  dict_get (KStr "paths") specs = Some (VDict paths) ->
  forall k operations,
    In (k, operations) paths -> served api k /\ operations <> VNone.
Proof.
  intros Hrun Hpaths. unfold as_dict in Hrun.
  apply sbind_Ok in Hrun as (w1 & declared & _ & Hrun).
  apply sbind_Ok in Hrun as (w2 & responses & _ & Hrun).
  apply sbind_Ok in Hrun as (w3 & paths0 & Hloop & Hrun).
  apply sbind_Ok in Hrun as (w4 & definitions & _ & Hrun).
  apply sbind_Ok in Hrun as (w5 & host & _ & Hrun).
  match type of Hrun with
  | ret (VDict (not_none ?l)) _ = _ => remember l as entries eqn:Hentries
  end.
  unfold ret in Hrun. injection Hrun as _ <-.
  apply not_none_In in Hpaths as [Hin _]. subst entries. simpl in Hin.
  assert (Hsorted : paths = not_none_sorted paths0).
  { repeat (destruct Hin as [Hin|Hin]; [try discriminate Hin|]);
      [now injection Hin as <- | destruct Hin]. }
  subst paths. intros k operations Hk.
  apply not_none_sorted_In in Hk as [Hk Hv]. split; [|exact Hv].
  pose proof (namespace_paths_keys app api fuel (served api) (namespaces api) []
                (fun ns e a us u Hns Hin Hu =>
                   ex_intro _ ns (ex_intro _ e (ex_intro _ a (ex_intro _ us
                     (ex_intro _ u (conj Hns (conj Hin (conj Hu eq_refl))))))))
                ltac:(constructor) _ _ _ Hloop) as Hall.
  rewrite List.Forall_forall in Hall. exact (Hall _ Hk).
Qed.

Lemma as_dict_paths_witness :
  Forall (fun kv => served (todo_api [todo_namespace]) (fst kv)
                    /\ snd kv <> VNone)
    todo_paths.
Proof.
  apply List.Forall_forall. intros [k operations].
  apply (as_dict_paths witness_app (todo_api [todo_namespace]) 3 todo_world
           (fst (as_dict witness_app (todo_api [todo_namespace]) 3 todo_world))
           (match todo_specs with VDict specs => specs | _ => [] end)).
  - vm_compute. reflexivity.
  - reflexivity.
Defined.

(** ** The locations of the parameters of a parser *)

Lemma dict_get_update_ne {A} k (s : list (key * A)) :
  forall d, dict_get k s = None -> dict_get k (dict_update d s) = dict_get k d.
Proof.
  unfold dict_update.
  induction s as [|[k' v'] s IH]; intros d Hk; simpl in *; [reflexivity|].
  destruct (decide (k = k')) as [->|Hne]; [discriminate|].
  rewrite (IH _ Hk). apply dict_get_set_ne. congruence.
Qed.

Lemma LOCATIONS_get_parser location : In (LOCATIONS_get location) parser_locations.
Proof.
  unfold LOCATIONS_get, parser_locations, LOCATIONS.
  destruct location; simpl; auto.
  repeat (destruct (String.eqb _ _); simpl; auto 6).
Qed.

Lemma handle_arg_type_location arg param param' l :
  (forall s, attr_schema (arg_type arg) = Some (VDict s) ->
             dict_get (KStr "in") s = None) ->
  dict_get (KStr "in") param = Some (VStr l) -> In l parser_locations ->
  _handle_arg_type arg param = Ok param' ->
  exists l', dict_get (KStr "in") param' = Some (VStr l') /\ In l' parser_locations.
Proof.
  intros Hschema Hin Hl. unfold _handle_arg_type.
  destruct (if hashable (arg_type arg) then PY_TYPES (arg_type arg) else None).
  { intros [= <-]. exists l. split; [|exact Hl].
    rewrite dict_get_set_ne; [exact Hin | discriminate]. }
  destruct (attr_apidoc (arg_type arg)) as [apidoc|].
  { destruct apidoc; try discriminate. intros H.
    apply bind_Ok in H as (n & _ & H). injection H as <-.
    exists "body". split; [apply dict_get_set_eq | simpl; tauto]. }
  destruct (attr_schema (arg_type arg)) as [schema|].
  { unfold update_with. destruct schema; try discriminate. intros [= <-].
    exists l. split; [|exact Hl].
    rewrite dict_get_update_ne; [exact Hin | now apply Hschema]. }
  destruct (eq_str (arg_location arg) "files"); intros [= <-];
    (exists l; split; [|exact Hl]);
    (rewrite dict_get_set_ne; [exact Hin | discriminate]).
Qed.

Lemma arg_to_param_location arg param :
  (forall s, attr_schema (arg_type arg) = Some (VDict s) ->
             dict_get (KStr "in") s = None) ->
  arg_to_param arg = Ok param ->
  parser_located (VDict param).
Proof.
  intros Hschema. unfold arg_to_param. intros H. cbv zeta in H.
  apply bind_Ok in H as (p1 & H1 & H).
  destruct (handle_arg_type_location arg _ p1 (LOCATIONS_get (arg_location arg))
              Hschema (dict_get_set_eq _ _ []) (LOCATIONS_get_parser _) H1)
    as (l & Hl & Hloc).
  apply bind_Ok in H as (p2 & H2 & H). injection H as <-.
  eexists _, l. split; [reflexivity|]. split; [|exact Hloc].
  assert (H12 : dict_get (KStr "in") p2 = Some (VStr l)).
  { destruct (eq_str (arg_action arg) "append").
    - apply bind_Ok in H2 as (t & _ & H2). injection H2 as <-.
      rewrite !dict_get_set_ne by discriminate.
      repeat match goal with
             | |- context [if ?b then _ else _] => destruct b
             end;
        rewrite ?dict_get_set_ne by discriminate; exact Hl.
    - injection H2 as <-.
      repeat match goal with
             | |- context [if ?b then _ else _] => destruct b
             end;
        rewrite ?dict_get_set_ne by discriminate; exact Hl. }
  destruct (truthy (arg_choices arg));
    rewrite ?dict_get_set_ne by discriminate; exact H12.
Qed.

Lemma parser_to_params_loop_located args :
  forall params locations params' locations',
    (forall arg s, In arg args ->
                   attr_schema (arg_type arg) = Some (VDict s) ->
                   dict_get (KStr "in") s = None) ->
    Forall (fun kv => parser_located (snd kv)) params ->
    parser_to_params_loop args params locations = Ok (params', locations') ->
    Forall (fun kv => parser_located (snd kv)) params'.
Proof.
  induction args as [|arg args IH];
    intros params locations params' locations' Hschema Hall H; simpl in H.
  - now injection H as <- _.
  - assert (Hrest : forall a s, In a args ->
                                attr_schema (arg_type a) = Some (VDict s) ->
                                dict_get (KStr "in") s = None)
      by (intros a s Ha; apply Hschema; now right).
    destruct (eq_str (arg_location arg) "cookie"); [now apply (IH _ _ _ _ Hrest Hall H)|].
    apply bind_Ok in H as (param & Hparam & H).
    apply bind_Ok in H as (locs & _ & H).
    apply (IH _ _ _ _ Hrest) in H; [exact H|].
    apply (Forall_dict_set parser_located); [|exact Hall].
    apply (arg_to_param_location arg); [|exact Hparam].
    intros s. apply Hschema. now left.
Qed.

(** X17.  Every parameter that [parser_to_params] returns is a mapping
    located in the query, the form data, a header or the body, when no
    argument has a type whose schema sets a location of its own. *)
Theorem parser_to_params_locations (args : list argument) (params : dict) :
  parser_to_params args = Ok params ->
  (forall arg s, In arg args ->
                 attr_schema (arg_type arg) = Some (VDict s) ->
                 dict_get (KStr "in") s = None) ->
  forall name param, In (name, param) params -> parser_located param.
Proof.
  unfold parser_to_params. intros H Hschema name param Hin.
  apply bind_Ok in H as ([ps locations] & Hloop & H).
  destruct (_ && _); [discriminate|]. injection H as <-.
  pose proof (parser_to_params_loop_located args [] [] ps locations Hschema
                ltac:(constructor) Hloop) as Hall.
  rewrite List.Forall_forall in Hall. exact (Hall _ Hin).
Qed.

Lemma parser_to_params_locations_witness :
  Forall (fun kv => parser_located (snd kv)) upload_params.
Proof.
  apply List.Forall_forall. intros [name param].
  apply (parser_to_params_locations upload_args); [reflexivity|].
  intros arg s Hin Hs. simpl in Hin.
  repeat (destruct Hin as [<-|Hin]; [try discriminate Hs|]); [|destruct Hin].
  now injection Hs as <-.
Defined.

(** ** The headers of an error response *)

Lemma dict_has_update {A} k (s : list (key * A)) :
  forall d, dict_has k d = true -> dict_has k (dict_update d s) = true.
Proof.
  unfold dict_update.
  induction s as [|[k' v'] s IH]; intros d Hk; simpl; [exact Hk|].
  apply IH. rewrite dict_has_set, Hk. apply orb_true_r.
Qed.

Lemma dict_get_del_ne {A} k k' (d : list (key * A)) :
  k <> k' -> dict_get k (dict_del k' d) = dict_get k d.
Proof.
  intros Hne. induction d as [|[k0 v0] d IH]; simpl; [reflexivity|].
  destruct (decide (k' = k0)) as [->|Hne0].
  - destruct (decide (k = k0)); [contradiction | reflexivity].
  - simpl. now rewrite IH.
Qed.

Lemma param_to_header_typed param header :
  _param_to_header param = Ok header -> dict_has (KStr "type") header = true.
Proof.
  unfold _param_to_header. cbv zeta.
  set (p := dict_del (KStr "in") param).
  destruct (if hashable _ then _ else None).
  { intros [= <-]. rewrite dict_has_set. reflexivity. }
  unfold get_default. destruct (dict_get (KStr "type") p) as [typedef|] eqn:Ht.
  - destruct (attr_schema typedef) as [schema|].
    + unfold update_with. destruct schema; try discriminate. intros [= <-].
      apply dict_has_update. unfold dict_has. now rewrite Ht.
    + intros [= <-]. rewrite dict_has_set. reflexivity.
  - simpl. intros [= <-]. rewrite dict_has_set. reflexivity.
Qed.

(** X18.  The headers that [register_errors] derives from the documented
    parameters of an error handler are the parameters located in a
    header, each turned into a mapping with a type. *)
Theorem headers_of_typed (params : dict) :
  forall params' headers,
    headers_of params = (params', Ok headers) ->
    forall name header,
      In (name, header) headers ->
      (exists h, header = VDict h /\ dict_has (KStr "type") h = true)
      /\ exists o, In (name, VDict o) params
                   /\ eq_str (get_default (KStr "in") VNone o) "header" = true.
Proof.
  induction params as [|[n o] params IH]; intros params' headers H name header Hin;
    simpl in H.
  - injection H as _ <-. destruct Hin.
  - destruct o as [| | | | |od| | | | | |]; try discriminate.
    destruct (eq_str (get_default (KStr "in") VNone od) "header") eqn:Hloc.
    + destruct (_param_to_header od) as [h|e] eqn:Hh; [|discriminate].
      destruct (headers_of params) as [rest' [hs|e]] eqn:Hrest; [|discriminate].
      injection H as _ <-. destruct Hin as [[= <- <-]|Hin].
      * split; [|exists od; split; [now left | exact Hloc]].
        exists h. split; [reflexivity | now apply param_to_header_typed in Hh].
      * destruct (IH _ _ eq_refl name header Hin) as [Hty (o & Ho & Hl)].
        split; [exact Hty|]. exists o. split; [now right | exact Hl].
    + destruct (headers_of params) as [rest' [hs|e]] eqn:Hrest; [|discriminate].
      injection H as _ <-.
      destruct (IH _ _ eq_refl name header Hin) as [Hty (o & Ho & Hl)].
      split; [exact Hty|]. exists o. split; [now right | exact Hl].
Qed.

Lemma headers_of_typed_witness :
  Forall (fun kv =>
            (exists h, snd kv = VDict h /\ dict_has (KStr "type") h = true)
            /\ exists o, In (fst kv, VDict o) handler_params
                         /\ eq_str (get_default (KStr "in") VNone o) "header"
                            = true)
    handler_headers.
Proof.
  apply List.Forall_forall. intros [name header].
  apply (headers_of_typed handler_params (fst (headers_of handler_params))).
  reflexivity.
Defined.

(** ** The definitions *)

Lemma definitions_of_complete entries :
  forall d n specs,
    definitions_of entries = Ok d ->
    NoDup (map fst entries) ->
    In (n, specs) entries ->
    exists schema,
      schema_of specs = Some schema /\ dict_get (KStr n) d = Some schema.
Proof.
  induction entries as [|[n0 specs0] entries IH]; intros d n specs Hd Hnd Hin;
    [destruct Hin|].
  simpl in Hd. destruct (schema_of specs0) as [s|] eqn:Hs; [|discriminate].
  apply bind_Ok in Hd as (d' & Hd' & Hd). injection Hd as <-.
  apply NoDup_cons in Hnd as [Hn0 Hnd]. simpl.
  destruct Hin as [[= <- <-]|Hin].
  - exists s. split; [exact Hs|]. now destruct (decide (KStr n0 = KStr n0)).
  - destruct (decide (KStr n = KStr n0)) as [[= ->]|Hne].
    + exfalso. apply Hn0. apply list_elem_of_In.
      now apply (in_map fst) in Hin.
    + now apply (IH d').
Qed.

(** X19.  The definitions that [serialize_definitions] returns hold every
    registered model under its name, with its schema. *)
Theorem serialize_definitions_complete (reg : registry) (definitions : dict)
  (n : string) (specs : spec) :
  serialize_definitions reg = Ok definitions ->
  reg !! n = Some specs ->
  exists schema,
    schema_of specs = Some schema
    /\ dict_get (KStr n) definitions = Some schema.
Proof.
  unfold serialize_definitions. intros Hd Hn.
  apply (definitions_of_complete (map_to_list reg)); [exact Hd | |].
  - apply NoDup_fst_map_to_list.
  - apply list_elem_of_In. now apply elem_of_map_to_list.
Qed.

Lemma serialize_definitions_complete_witness :
  exists schema,
    schema_of (SModel (witness_model "Todo" VNone
                         [("task", fields.Raw (VDict [(KStr "type", VStr "string")]))]))
    = Some schema
    /\ dict_get (KStr "Todo")
         [(KStr "Todo", VDict [(KStr "properties", VDict [])])] = Some schema.
Proof.
  apply (serialize_definitions_complete witness_models).
  - vm_compute. reflexivity.
  - reflexivity.
Defined.

(** ** Valid operations *)

Lemma In_dict_set {A} k (v : A) (d : list (key * A)) x :
  In x (dict_set k v d) -> x = (k, v) \/ In x d.
Proof.
  induction d as [|[k' v'] d IH]; simpl.
  - intros [<-|[]]. now left.
  - destruct (decide (k = k')); simpl; intuition.
Qed.

Section ValidOperations.
Variable app : App.
Variable api : Api.
Variable fuel : nat.

(** X20.  An operation that [serialize_operation] returns always has
    responses, and they are not empty; when it has parameters, they are
    not empty either, and each has a name, a location and a type or a
    schema. *)
Theorem serialize_operation_valid (doc : dict) (method : string) (w w' : world)
  (operation : value) :
  serialize_operation app api fuel doc method w = (w', Ok operation) ->
  valid_operation operation.
Proof.
  unfold serialize_operation. intros H.
  apply sbind_Ok in H as (w1 & responses & Hresponses & H).
  apply responses_for_returns in Hresponses as [Hne _].
  apply sbind_Ok in H as (w2 & md & _ & H).
  apply sbind_Ok in H as (w3 & ds & _ & H).
  apply sbind_Ok in H as (w4 & summary & _ & H).
  apply sbind_Ok in H as (w5 & description & _ & H).
  apply sbind_Ok in H as (w6 & operation_id & _ & H).
  apply sbind_Ok in H as (w7 & parameters & Hparameters & H).
  injection Hparameters as _ Hparameters.
  apply parameters_for_all_complete in Hparameters.
  apply sbind_Ok in H as (w8 & security & _ & H).
  cbv zeta in H.
  set (base := [(KStr "responses", py_or (VDict responses) VNone);
                (KStr "summary", summary);
                (KStr "description", py_or description VNone);
                (KStr "operationId", operation_id);
                (KStr "parameters", py_or (VList parameters) VNone);
                (KStr "security", security)]) in H.
  set (op1 := if truthy _ then dict_set (KStr "deprecated") (VBool true) base
              else base) in H.
  apply sbind_Ok in H as (w9 & form & _ & H).
  apply sbind_Ok in H as (w10 & op2 & Hop2 & H). injection H as _ <-.
  assert (Hresp : py_or (VDict responses) VNone = VDict responses)
    by (destruct responses; [contradiction | reflexivity]).
  assert (B1 : dict_get (KStr "responses") op1 = Some (VDict responses)
               /\ forall ps, In (KStr "parameters", ps) op1 ->
                             ps = py_or (VList parameters) VNone).
  { subst op1. split.
    - destruct (truthy _); [rewrite dict_get_set_ne by discriminate|];
        subst base; simpl; now rewrite Hresp.
    - intros ps Hin.
      assert (Hbase : In (KStr "parameters", ps) base ->
                      ps = py_or (VList parameters) VNone).
      { subst base. simpl.
        intros Hb. repeat (destruct Hb as [Hb|Hb]; [try discriminate Hb|]);
          [now injection Hb as <- | destruct Hb]. }
      destruct (truthy _); [|now apply Hbase].
      apply In_dict_set in Hin as [Hin|Hin]; [discriminate | now apply Hbase]. }
  destruct B1 as [R1 P1]. clearbody op1. clear base.
  assert (B2 : dict_get (KStr "responses") op2 = Some (VDict responses)
               /\ forall ps, In (KStr "parameters", ps) op2 ->
                             ps = py_or (VList parameters) VNone).
  { destruct form.
    - apply sbind_Ok in Hop2 as (w11 & file & _ & Hop2).
      destruct file; injection Hop2 as _ <-;
        (split; [rewrite dict_get_set_ne by discriminate; exact R1|]);
        intros ps Hin;
        (apply In_dict_set in Hin as [Hin|Hin]; [discriminate | now apply P1]).
    - injection Hop2 as _ <-. now split. }
  destruct B2 as [R2 P2].
  exists (not_none op2). split; [reflexivity|]. split.
  - exists responses. split; [|exact Hne]. now apply dict_get_not_none.
  - intros ps Hps. apply not_none_In in Hps as [Hin Hnone].
    apply P2 in Hin. subst ps. exists parameters.
    destruct parameters as [|p parameters]; [now contradiction Hnone|].
    split; [reflexivity|]. split; [discriminate|].
    intros x Hx. rewrite List.Forall_forall in Hparameters. now apply Hparameters.
Qed.
End ValidOperations.

Lemma serialize_operation_valid_witness : valid_operation todo_operation.
Proof.
  apply (serialize_operation_valid witness_app (todo_api [todo_namespace]) 3
           todo_resource_doc "get" todo_served
           (fst (serialize_operation witness_app (todo_api [todo_namespace]) 3
                   todo_resource_doc "get" todo_served))).
  vm_compute. reflexivity.
Defined.
